(** * The static machine-code pool of [lj_mcode_spool.c]

    A shallow embedding of [lj_alloc_from_static_pool] and
    [lj_release_to_static_pool], the two entry points of the block pool
    that lives in the [.bss] section, followed by the properties of the
    pool proved about that embedding.

    The C integers are integers of [Z] with the conversions written
    out; the occupancy array [_static_alloc_map] is a list read and
    written through bounds-checked accessors; the two system calls are
    functions handed to the entry points; the ways a call can go wrong
    (a failed [assert0], an access outside the array, an operation
    that C leaves undefined) are outcomes of their own. *)

From Stdlib Require Import ZArith Lia Bool.
From stdpp Require Import base list.

Local Open Scope Z_scope.

(** ** Outcomes of a call *)

Inductive outcome (A : Type) : Type :=
| Ret (a : A)          (* the call ran to its [return] *)
| AssertFail           (* an [assert0] fired: [__android_log_assert] aborts *)
| OutOfBounds          (* [_static_alloc_map] indexed outside the array *)
| Undefined.           (* signed or pointer arithmetic left its range:
                          C gives the rest of the call no meaning *)

Arguments Ret {A} a.
Arguments AssertFail {A}.
Arguments OutOfBounds {A}.
Arguments Undefined {A}.

Definition bind {A B : Type} (c : outcome A) (k : A -> outcome B) : outcome B :=
  match c with
  | Ret a => k a
  | AssertFail => AssertFail
  | OutOfBounds => OutOfBounds
  | Undefined => Undefined
  end.

Notation "'do' x <- c ; k" := (bind c (fun x => k))
  (at level 10, x name, c at level 100, k at level 200).

(** [lia] with division and remainder by constants. *)
Ltac Zify.zify_post_hook ::= Z.to_euclidean_division_equations.

Definition assert0 (cond : bool) : outcome unit :=
  if cond then Ret tt else AssertFail.

(** ** Machine integers *)

(** [unsigned int] and [int] are 32 bits wide on every Android ABI.
    Unsigned arithmetic and the conversions between the two types wrap
    around. *)
Definition wrap_uint (x : Z) : Z := x mod 2 ^ 32.
Definition wrap_int (x : Z) : Z := (x + 2 ^ 31) mod 2 ^ 32 - 2 ^ 31.

(** [a * b] on two [int] operands: undefined when the product does not
    fit an [int]. *)
Definition int_mul (a b : Z) : outcome Z :=
  if (- 2 ^ 31 <=? a * b) && (a * b <? 2 ^ 31) then Ret (a * b) else Undefined.

(** ** The occupancy array *)

(** [_static_alloc_map[i]] as an rvalue. *)
Definition load (map : list Z) (i : Z) : outcome Z :=
  if i <? 0 then OutOfBounds
  else match map !! Z.to_nat i with
       | Some v => Ret v
       | None => OutOfBounds
       end.

(** [_static_alloc_map[i] = v]. *)
Definition store (map : list Z) (i v : Z) : outcome (list Z) :=
  if (0 <=? i) && (i <? Z.of_nat (length map))
  then Ret (<[Z.to_nat i := v]> map)
  else OutOfBounds.

(** The array with the [n] flags from index [i] on set to [v]: what a
    marking loop leaves behind when every index is inside the array. *)
Fixpoint fill (map : list Z) (i : nat) (n : nat) (v : Z) : list Z :=
  match n with
  | O => map
  | S n' => fill (<[i := v]> map) (S i) n' v
  end.

(** The flag of block [i], for statements about the array. *)
Definition flag (map : list Z) (i : Z) : option Z := map !! Z.to_nat i.

(** Block [i] is inside the run of [b] blocks that starts at [s]. *)
Definition in_run (s b i : Z) : bool := (s <=? i) && (i <? s + b).

(** ** A small pool, for running the calls *)

(** A pool of eight blocks in a 32-bit process, its array loaded at a
    page-aligned address that is not block-aligned. *)
Definition example_kb : Z := 512.
Definition example_bits : Z := 32.
Definition example_pool : Z := 0x10001000.

Definition mprotect_ok (addr len prot : Z) : Z := 0.
Definition mprotect_denied (addr len prot : Z) : Z := -1.
Definition madvise_ok (addr len : Z) : Z := 0.

Section Pool.

(** The build-time capacity, in KiB ([-DLJ_ANDROID_MCODE_STATIC_POOL_KB=...]). *)
Variable LJ_ANDROID_MCODE_STATIC_POOL_KB : Z.
(** Width of a pointer, of [uintptr_t], [size_t] and [ptrdiff_t]. *)
Variable ptr_bits : Z.
(** Where the loader placed the array [_static_alloc_pool]. *)
Variable static_alloc_pool : Z.

Definition STATIC_POOL_SIZE : Z := LJ_ANDROID_MCODE_STATIC_POOL_KB * 1024.
Definition STATIC_POOL_MIN_BLOCK_SIZE_KB : Z := 64.
Definition STATIC_POOL_MIN_BLOCK_SIZE : Z := STATIC_POOL_MIN_BLOCK_SIZE_KB * 1024.
Definition STATIC_POOL_BLOCK_SIZE_MASK : Z := STATIC_POOL_MIN_BLOCK_SIZE - 1.
Definition STATIC_POOL_MAX_ENTRIES : Z :=
  Z.quot LJ_ANDROID_MCODE_STATIC_POOL_KB STATIC_POOL_MIN_BLOCK_SIZE_KB.

(** [sizeof(_static_alloc_pool)]: the pool and one block more. *)
Definition sizeof_static_alloc_pool : Z :=
  STATIC_POOL_SIZE + STATIC_POOL_MIN_BLOCK_SIZE.

(** [uintptr_t] and [size_t] arithmetic wraps around. *)
Definition wrap_uptr (x : Z) : Z := x mod 2 ^ ptr_bits.

(** [p + i] on a [void*] and a signed offset (GNU byte arithmetic):
    undefined when the sum leaves the address space. *)
Definition ptr_add (p i : Z) : outcome Z :=
  if (0 <=? p + i) && (p + i <? 2 ^ ptr_bits) then Ret (p + i) else Undefined.
(** [p - q] on two [void*]: undefined when the difference does not fit
    a [ptrdiff_t]. *)
Definition ptr_diff (p q : Z) : outcome Z :=
  if (- 2 ^ (ptr_bits - 1) <=? p - q) && (p - q <? 2 ^ (ptr_bits - 1))
  then Ret (p - q) else Undefined.

(** [(void* )(((uintptr_t)_static_alloc_pool + STATIC_POOL_MIN_BLOCK_SIZE - 1)
              & ~(STATIC_POOL_MIN_BLOCK_SIZE - 1))]; the mask is the [int]
    [~65535] converted to [uintptr_t]. *)
Definition aligned_pool_start : Z :=
  Z.land (wrap_uptr (static_alloc_pool + STATIC_POOL_MIN_BLOCK_SIZE - 1))
         (wrap_uptr (Z.lnot (STATIC_POOL_MIN_BLOCK_SIZE - 1))).

(** The condition of the [assert0] that follows each computation of
    [aligned_pool_start]. *)
Definition pool_start_check : bool :=
  (static_alloc_pool <=? aligned_pool_start)
  && (static_alloc_pool <=? wrap_uptr (static_alloc_pool + sizeof_static_alloc_pool)).

(** The opening statements of both entry points:
    [size_blocks = size / STATIC_POOL_MIN_BLOCK_SIZE], one more when
    [size & STATIC_POOL_BLOCK_SIZE_MASK] is not zero. *)
Definition size_to_blocks (size : Z) : Z :=
  let size_blocks := wrap_int (Z.quot size STATIC_POOL_MIN_BLOCK_SIZE) in
  if negb (Z.land size STATIC_POOL_BLOCK_SIZE_MASK =? 0)
  then wrap_int (size_blocks + 1)
  else size_blocks.

(** Each [for] loop below is a counted loop; its trip count is the
    structural argument, and the loop variable is carried along. *)

(** [for(end = start; end < start + size_blocks; end++)] with its
    [break]; the result is [all_ok]. *)
Fixpoint scan_run (map : list Z) (end_ : Z) (trips : nat) : outcome bool :=
  match trips with
  | O => Ret true
  | S trips' =>
      do v <- load map end_;
      if negb (v =? 0) then Ret false
      else scan_run map (end_ + 1) trips'
  end.

(** [for(mark = start; mark < start + size_blocks; mark++)
      _static_alloc_map[mark] = 1;] *)
Fixpoint mark_used (map : list Z) (mark : Z) (trips : nat) : outcome (list Z) :=
  match trips with
  | O => Ret map
  | S trips' =>
      do map' <- store map mark 1;
      mark_used map' (mark + 1) trips'
  end.

(** [for(i = 0; i < STATIC_POOL_MAX_ENTRIES; i++)
      if(_static_alloc_map[i]) used += STATIC_POOL_MIN_BLOCK_SIZE;]
    The sum only feeds the log line. *)
Fixpoint count_used (map : list Z) (i : Z) (trips : nat) (used : Z) : outcome Z :=
  match trips with
  | O => Ret used
  | S trips' =>
      do v <- load map i;
      count_used map (i + 1) trips'
        (if negb (v =? 0) then wrap_uptr (used + STATIC_POOL_MIN_BLOCK_SIZE) else used)
  end.

(** Trip count of [for(x = lo; x < hi; x++)]. *)
Definition trips_between (lo hi : Z) : nat := Z.to_nat (hi - lo).

(** [for(start = 0; start <= STATIC_POOL_MAX_ENTRIES - size_blocks; start++)]:
    the result is the pair of [p] and the array when the loop is left. *)
Fixpoint scan_starts (mprotect : Z -> Z -> Z -> Z) (map : list Z)
    (size_blocks prot : Z) (start : Z) (trips : nat) : outcome (Z * list Z) :=
  match trips with
  | O => Ret (0, map)
  | S trips' =>
      do v <- load map start;
      if v =? 0 then
        do all_ok <- scan_run map start (trips_between start (start + size_blocks));
        if all_ok : bool then
          do _u <- assert0 pool_start_check;
          do offset <- int_mul start STATIC_POOL_MIN_BLOCK_SIZE;
          do p <- ptr_add aligned_pool_start offset;
          do len <- int_mul size_blocks STATIC_POOL_MIN_BLOCK_SIZE;
          if mprotect p (wrap_uptr len) prot =? 0
          then
            do map' <- mark_used map start (trips_between start (start + size_blocks));
            Ret (p, map')
          else Ret (0, map)
        else scan_starts mprotect map size_blocks prot (start + 1) trips'
      else scan_starts mprotect map size_blocks prot (start + 1) trips'
  end.

(** Trip count of the loop over [start]:
    [0 <= start <= STATIC_POOL_MAX_ENTRIES - size_blocks]. *)
Definition start_trips (size_blocks : Z) : nat :=
  trips_between 0 (STATIC_POOL_MAX_ENTRIES - size_blocks + 1).

(** [void* lj_alloc_from_static_pool(unsigned int size, int prot)].
    The result is the returned pointer ([0] is [NULL]) and the array
    after the call. *)
Definition lj_alloc_from_static_pool (mprotect : Z -> Z -> Z -> Z)
    (map : list Z) (size prot : Z) : outcome (Z * list Z) :=
  let size_blocks := size_to_blocks size in
  if size_blocks =? 0 then Ret (0, map)
  else
    do found <- scan_starts mprotect map size_blocks prot 0 (start_trips size_blocks);
    let (p, map') := found : Z * list Z in
    do _u <- count_used map' 0 (trips_between 0 STATIC_POOL_MAX_ENTRIES) 0;
    Ret (p, map').

(** [for(mark = index; mark < index + size_blocks; mark++)]: the read
    of the flag (for the double-release log line) and the write.  [mark]
    is an [int], [index] an [unsigned int]: the bound is compared
    unsigned. *)
Fixpoint mark_free (map : list Z) (mark : Z) (trips : nat) : outcome (list Z) :=
  match trips with
  | O => Ret map
  | S trips' =>
      do _u <- load map mark;
      do map' <- store map mark 0;
      mark_free map' (mark + 1) trips'
  end.

(** The bounds test of the release,
    [p < aligned_pool_start
     || p + size_blocks * STATIC_POOL_MIN_BLOCK_SIZE
        > aligned_pool_start + STATIC_POOL_SIZE]:
    the right operand is evaluated only when the left one is false. *)
Definition outside_pool (p size_blocks : Z) : outcome bool :=
  if p <? aligned_pool_start then Ret true
  else
    do len <- int_mul size_blocks STATIC_POOL_MIN_BLOCK_SIZE;
    do run_end <- ptr_add p len;
    do pool_end <- ptr_add aligned_pool_start STATIC_POOL_SIZE;
    Ret (pool_end <? run_end).

(** [int lj_release_to_static_pool(void* p, unsigned int size)].
    The result is the returned code and the array after the call. *)
Definition lj_release_to_static_pool (madvise : Z -> Z -> Z)
    (map : list Z) (p size : Z) : outcome (Z * list Z) :=
  let size_blocks := size_to_blocks size in
  if size_blocks =? 0 then Ret (1, map)
  else
    do _u <- assert0 pool_start_check;
    do outside <- outside_pool p size_blocks;
    if outside : bool then Ret (1, map)
    else
      do _u <- assert0 (Z.land p STATIC_POOL_BLOCK_SIZE_MASK =? 0);
      do offset <- ptr_diff p aligned_pool_start;
      let index := wrap_uint (Z.quot offset STATIC_POOL_MIN_BLOCK_SIZE) in
      do _u <- assert0 (index <? STATIC_POOL_MAX_ENTRIES);
      do _u <- assert0 (wrap_uint (index + size_blocks) <=? STATIC_POOL_MAX_ENTRIES);
      do map' <- mark_free map (wrap_int index)
                   (trips_between (wrap_uint (wrap_int index))
                                  (wrap_uint (index + size_blocks)));
      do len <- int_mul size_blocks STATIC_POOL_MIN_BLOCK_SIZE;
      let _ := madvise p (wrap_uptr len) in
      do _u <- count_used map' 0 (trips_between 0 STATIC_POOL_MAX_ENTRIES) 0;
      Ret (0, map').


(** ** Vocabulary of the properties *)

(** The [b] blocks from index [s] on are inside the array and free. *)
Definition free_run (map : list Z) (s b : Z) : Prop :=
  0 <= s /\ s + b <= STATIC_POOL_MAX_ENTRIES
  /\ forall i, s <= i < s + b -> flag map i = Some 0.

(** [s] is the smallest start index of a free run of [b] blocks. *)
Definition first_fit (map : list Z) (b s : Z) : Prop :=
  free_run map s b /\ forall s', 0 <= s' < s -> ~ free_run map s' b.

(** Address of block [s]. *)
Definition block_addr (s : Z) : Z :=
  aligned_pool_start + s * STATIC_POOL_MIN_BLOCK_SIZE.

(** What the allocator does once the scan has stopped at [s]. *)
Definition grant (mprotect : Z -> Z -> Z -> Z) (map : list Z)
    (b prot s : Z) : outcome (Z * list Z) :=
  if mprotect (block_addr s) (b * STATIC_POOL_MIN_BLOCK_SIZE) prot =? 0
  then Ret (block_addr s, fill map (Z.to_nat s) (Z.to_nat b) 1)
  else Ret (0, map).

(** ** Sequences of calls *)

(** A caller of the pool: each request carries the [mprotect] the
    system answers it with, each release names the request (by its rank
    among the requests made so far) whose returned address and size it
    hands back, and carries the [madvise] of that moment. *)
Inductive call : Type :=
| Acquire (size prot : Z) (mprotect : Z -> Z -> Z -> Z)
| Release (k : nat) (madvise : Z -> Z -> Z).

(** The occupancy array, and what the caller holds: the address and
    the size of every request made so far, in order. *)
Record pool_state : Type := PoolState {
  occupancy : list Z;
  grants : list (Z * Z)
}.

Definition step (st : pool_state) (c : call) : outcome pool_state :=
  match c with
  | Acquire size prot mprotect =>
      do r <- lj_alloc_from_static_pool mprotect (occupancy st) size prot;
      Ret (PoolState (snd r) (grants st ++ [(fst r, size)]))
  | Release k madvise =>
      match grants st !! k with
      | Some (p, size) =>
          do r <- lj_release_to_static_pool madvise (occupancy st) p size;
          Ret (PoolState (snd r) (grants st))
      | None => Ret st
      end
  end.

Fixpoint run (calls : list call) (st : pool_state) : outcome pool_state :=
  match calls with
  | [] => Ret st
  | c :: calls' => do st' <- step st c; run calls' st'
  end.

(** Every request is released exactly once, after it was made:
    [acquired] requests were made before [calls], and those in
    [released] were handed back already. *)
Fixpoint paired (calls : list call) (acquired : nat) (released : list nat) : bool :=
  match calls with
  | [] => forallb (fun k => bool_decide (k ∈ released)) (seq 0 acquired)
  | Acquire _ _ _ :: calls' => paired calls' (S acquired) released
  | Release k _ :: calls' =>
      bool_decide (k < acquired)%nat && negb (bool_decide (k ∈ released))
      && paired calls' acquired (k :: released)
  end.

(** The sizes are values of [unsigned int]. *)
Fixpoint sizes_ok (calls : list call) : bool :=
  match calls with
  | [] => true
  | Acquire size _ _ :: calls' => (0 <=? size) && (size <? 2 ^ 32) && sizes_ok calls'
  | Release _ _ :: calls' => sizes_ok calls'
  end.

(** Blocks asked for by all the requests together. *)
Fixpoint total_blocks (calls : list call) : Z :=
  match calls with
  | [] => 0
  | Acquire size _ _ :: calls' => (size + 65535) / 65536 + total_blocks calls'
  | Release _ _ :: calls' => total_blocks calls'
  end.

(** The array as the loader zero-initialises it. *)
Definition initial_state : pool_state :=
  PoolState (replicate (Z.to_nat STATIC_POOL_MAX_ENTRIES) 0) [].

(** What holds between the calls of a caller that hands back what it
    was granted: the flags that are set are those of the grants not
    yet released, and these grants do not overlap. *)
Record pool_inv (map : list Z) (gr : list (Z * Z)) (released : list nat) : Prop := {
  inv_length : Z.of_nat (length map) = STATIC_POOL_MAX_ENTRIES;
  inv_released : forall k, (k ∈ released) -> (k < length gr)%nat;
  inv_shape : forall k p size, gr !! k = Some (p, size) -> (k ∉ released) ->
    0 <= size < 2 ^ 32
    /\ (p <> 0 -> exists s, p = block_addr s /\ 0 <= s
          /\ 1 <= size_to_blocks size
          /\ s + size_to_blocks size <= STATIC_POOL_MAX_ENTRIES
          /\ forall i, s <= i < s + size_to_blocks size -> flag map i = Some 1);
  inv_cover : forall i v, 0 <= i -> flag map i = Some v -> v <> 0 ->
    exists k s size, gr !! k = Some (block_addr s, size) /\ (k ∉ released)
      /\ 0 <= s /\ s <= i < s + size_to_blocks size;
  inv_disjoint : forall k k' s s' size size', k <> k' ->
    gr !! k = Some (block_addr s, size) ->
    gr !! k' = Some (block_addr s', size') ->
    (k ∉ released) -> (k' ∉ released) -> 0 <= s -> 0 <= s' ->
    s + size_to_blocks size <= s' \/ s' + size_to_blocks size' <= s
}.

(** ** Figures for the log *)

(** Number of flags of the array that are set. *)
Definition set_flags (map : list Z) : Z :=
  Z.of_nat (length (List.filter (fun v => negb (v =? 0)) map)).

(** Every request of the sequence is answered by an [mprotect] that
    accepts whatever it is asked. *)
Definition mprotect_accepts (c : call) : Prop :=
  match c with
  | Acquire _ _ mprotect => forall addr len prot, mprotect addr len prot = 0
  | Release _ _ => True
  end.


(** What holds between the calls of a caller that stays within the
    pool's capacity: the flags from index [h] on are clear, and every
    request of at least one byte made so far was granted a run of the
    array. *)
Record budget_inv (map : list Z) (gr : list (Z * Z)) (h : Z) : Prop := {
  budget_length : Z.of_nat (length map) = STATIC_POOL_MAX_ENTRIES;
  budget_mark : 0 <= h;
  budget_above : forall i, h <= i < STATIC_POOL_MAX_ENTRIES -> flag map i = Some 0;
  budget_grants : forall k p size, gr !! k = Some (p, size) ->
    0 <= size < 2 ^ 32
    /\ (1 <= size -> p <> 0)
    /\ (p <> 0 -> exists s, p = block_addr s /\ 0 <= s
          /\ 1 <= size_to_blocks size
          /\ s + size_to_blocks size <= STATIC_POOL_MAX_ENTRIES)
}.


(** The requests handed back by the end of [calls], when every release
    names a request made before it and not handed back yet; [None] when
    some release does not. *)
Fixpoint released_after (calls : list call) (acquired : nat) (released : list nat)
    : option (list nat) :=
  match calls with
  | [] => Some released
  | Acquire _ _ _ :: calls' => released_after calls' (S acquired) released
  | Release k _ :: calls' =>
      if bool_decide (k < acquired)%nat && negb (bool_decide (k ∈ released))
      then released_after calls' acquired (k :: released)
      else None
  end.


(** A request of at most one block that [mprotect] accepts. *)
Definition one_block_request (c : call) : Prop :=
  match c with
  | Acquire size _ mprotect =>
      0 < size <= 65536 /\ forall addr len prot, mprotect addr len prot = 0
  | Release _ _ => False
  end.

(** The size a request was made with. *)
Definition request_size (c : call) : Z :=
  match c with
  | Acquire size _ _ => size
  | Release _ _ => 0
  end.

(** ** What the build and the loader guarantee *)

(** [_Static_assert(LJ_ANDROID_MCODE_STATIC_POOL_KB >= STATIC_POOL_MIN_BLOCK_SIZE_KB)]. *)
Hypothesis pool_kb_min :
  STATIC_POOL_MIN_BLOCK_SIZE_KB <= LJ_ANDROID_MCODE_STATIC_POOL_KB.
(** The array bound [STATIC_POOL_SIZE + STATIC_POOL_MIN_BLOCK_SIZE] is an
    [int] constant expression. *)
Hypothesis pool_size_int : sizeof_static_alloc_pool <= 2 ^ 31 - 1.
(** Pointers are at least as wide as [int]. *)
Hypothesis ptr_bits_min : 32 <= ptr_bits.
(** The array is an object: it does not sit at [NULL] and its end does
    not wrap around the address space. *)
Hypothesis pool_not_null : 0 < static_alloc_pool.
Hypothesis pool_in_address_space :
  static_alloc_pool + sizeof_static_alloc_pool < 2 ^ ptr_bits.

(** ** Arithmetic of the pool geometry *)

Ltac unfold_consts :=
  unfold sizeof_static_alloc_pool, STATIC_POOL_SIZE, STATIC_POOL_BLOCK_SIZE_MASK,
    STATIC_POOL_MIN_BLOCK_SIZE, STATIC_POOL_MIN_BLOCK_SIZE_KB in *.

Lemma block_size_val : STATIC_POOL_MIN_BLOCK_SIZE = 65536.
Proof. reflexivity. Qed.

Lemma ptr_range : 2 ^ 32 <= 2 ^ ptr_bits.
Proof. apply Z.pow_le_mono_r; lia. Qed.

Lemma ptrdiff_range : 2 * 2 ^ (ptr_bits - 1) = 2 ^ ptr_bits.
Proof.
  rewrite <- Z.pow_succ_r by lia. f_equal. lia.
Qed.

Lemma max_entries_div :
  STATIC_POOL_MAX_ENTRIES = LJ_ANDROID_MCODE_STATIC_POOL_KB / 64.
Proof.
  unfold STATIC_POOL_MAX_ENTRIES. unfold_consts.
  apply Z.quot_div_nonneg; lia.
Qed.

Lemma max_entries_bounds :
  1 <= STATIC_POOL_MAX_ENTRIES < 32768
  /\ STATIC_POOL_MAX_ENTRIES * 65536 <= STATIC_POOL_SIZE
  /\ STATIC_POOL_SIZE < (STATIC_POOL_MAX_ENTRIES + 1) * 65536.
Proof.
  rewrite max_entries_div.
  pose proof pool_size_int. unfold_consts. lia.
Qed.

Lemma wrap_uptr_small x : 0 <= x < 2 ^ ptr_bits -> wrap_uptr x = x.
Proof. intros. unfold wrap_uptr. apply Z.mod_small; lia. Qed.

Lemma wrap_uint_small x : 0 <= x < 2 ^ 32 -> wrap_uint x = x.
Proof. intros. unfold wrap_uint. apply Z.mod_small; lia. Qed.

Lemma wrap_int_small x : - 2 ^ 31 <= x < 2 ^ 31 -> wrap_int x = x.
Proof. intros. unfold wrap_int. rewrite Z.mod_small; lia. Qed.

Lemma int_mul_defined a b :
  - 2 ^ 31 <= a * b < 2 ^ 31 -> int_mul a b = Ret (a * b).
Proof.
  intros H. unfold int_mul.
  destruct (Z.leb_spec (- 2 ^ 31) (a * b)); [|lia].
  destruct (Z.ltb_spec (a * b) (2 ^ 31)); [reflexivity|lia].
Qed.

Lemma ptr_add_defined p i :
  0 <= p + i < 2 ^ ptr_bits -> ptr_add p i = Ret (p + i).
Proof.
  intros H. unfold ptr_add.
  destruct (Z.leb_spec 0 (p + i)); [|lia].
  destruct (Z.ltb_spec (p + i) (2 ^ ptr_bits)); [reflexivity|lia].
Qed.

Lemma ptr_diff_defined p q :
  - 2 ^ (ptr_bits - 1) <= p - q < 2 ^ (ptr_bits - 1) -> ptr_diff p q = Ret (p - q).
Proof.
  intros H. unfold ptr_diff.
  destruct (Z.leb_spec (- 2 ^ (ptr_bits - 1)) (p - q)); [|lia].
  destruct (Z.ltb_spec (p - q) (2 ^ (ptr_bits - 1))); [reflexivity|lia].
Qed.

(** Clearing the low sixteen bits of a pointer-sized value. *)
Lemma land_block_mask x :
  0 <= x < 2 ^ ptr_bits ->
  Z.land x (wrap_uptr (Z.lnot (STATIC_POOL_MIN_BLOCK_SIZE - 1))) = x / 65536 * 65536.
Proof.
  intros Hx. unfold wrap_uptr.
  rewrite <- Z.land_ones by lia.
  rewrite (Z.land_comm (Z.lnot _)), Z.land_assoc, Z.land_ones by lia.
  rewrite Z.mod_small by lia.
  rewrite <- Z.ldiff_land.
  change (STATIC_POOL_MIN_BLOCK_SIZE - 1) with (Z.ones 16).
  rewrite Z.ldiff_ones_r by lia.
  rewrite Z.shiftl_mul_pow2, Z.shiftr_div_pow2 by lia.
  reflexivity.
Qed.

Lemma aligned_pool_start_eq :
  aligned_pool_start = (static_alloc_pool + 65535) / 65536 * 65536.
Proof.
  unfold aligned_pool_start.
  pose proof pool_in_address_space. unfold_consts.
  change (64 * 1024) with 65536 in *.
  rewrite (wrap_uptr_small (static_alloc_pool + 65536 - 1)) by lia.
  rewrite land_block_mask by lia.
  do 2 f_equal. lia.
Qed.

Lemma aligned_pool_start_bounds :
  static_alloc_pool <= aligned_pool_start < static_alloc_pool + 65536
  /\ aligned_pool_start mod 65536 = 0.
Proof.
  rewrite aligned_pool_start_eq. split; [lia|].
  apply Z.mod_mul. lia.
Qed.

Lemma pool_start_check_true : pool_start_check = true.
Proof.
  unfold pool_start_check.
  pose proof aligned_pool_start_bounds as [Hb _].
  pose proof pool_in_address_space. pose proof pool_size_int.
  rewrite wrap_uptr_small by (unfold_consts; lia).
  apply andb_true_intro; split; apply Z.leb_le; unfold_consts; lia.
Qed.

Lemma size_to_blocks_eq size :
  0 <= size < 2 ^ 32 -> size_to_blocks size = (size + 65535) / 65536.
Proof.
  intros Hs. unfold size_to_blocks.
  change STATIC_POOL_BLOCK_SIZE_MASK with (Z.ones 16).
  rewrite Z.land_ones by lia.
  rewrite block_size_val, Z.quot_div_nonneg by lia.
  change (2 ^ 16) with 65536.
  rewrite (wrap_int_small (size / 65536)) by lia.
  destruct (Z.eqb_spec (size mod 65536) 0) as [E|E]; simpl.
  - lia.
  - rewrite wrap_int_small by lia. lia.
Qed.

Lemma size_to_blocks_range size :
  0 <= size < 2 ^ 32 -> 0 <= size_to_blocks size <= 65536.
Proof. intros Hs. rewrite size_to_blocks_eq by assumption. lia. Qed.


(** ** The array accessors and the loops *)

Lemma fill_length map i n v : length (fill map i n v) = length map.
Proof.
  revert map i. induction n as [|n IH]; intros map i; simpl; [reflexivity|].
  rewrite IH. apply length_insert.
Qed.

Lemma fill_lookup_out map i n v j :
  ~ (i <= j < i + n)%nat -> fill map i n v !! j = map !! j.
Proof.
  revert map i. induction n as [|n IH]; intros map i Hj; simpl; [reflexivity|].
  rewrite IH by lia. apply list_lookup_insert_ne. lia.
Qed.

Lemma fill_lookup_in map i n v j :
  (i <= j < i + n)%nat -> (j < length map)%nat -> fill map i n v !! j = Some v.
Proof.
  revert map i. induction n as [|n IH]; intros map i Hj Hlen; simpl; [lia|].
  destruct (decide (i = j)) as [->|Hne].
  - rewrite fill_lookup_out by lia. apply list_lookup_insert_eq. exact Hlen.
  - apply IH; [lia|]. rewrite length_insert. exact Hlen.
Qed.

(** The flags after a fill, block by block. *)
Lemma flag_fill map s b v i :
  0 <= s -> 0 <= b -> s + b <= Z.of_nat (length map) -> 0 <= i ->
  flag (fill map (Z.to_nat s) (Z.to_nat b) v) i
  = if in_run s b i then Some v else flag map i.
Proof.
  intros Hs Hb Hlen Hi. unfold flag, in_run.
  destruct (Z.leb_spec s i); destruct (Z.ltb_spec i (s + b)); simpl.
  - apply fill_lookup_in; lia.
  - apply fill_lookup_out; lia.
  - apply fill_lookup_out; lia.
  - apply fill_lookup_out; lia.
Qed.

Lemma load_inside map i :
  0 <= i < Z.of_nat (length map) ->
  exists v, flag map i = Some v /\ load map i = Ret v.
Proof.
  intros Hi. unfold load, flag.
  destruct (Z.ltb_spec i 0); [lia|].
  destruct (lookup_lt_is_Some_2 map (Z.to_nat i)) as [v Hv]; [lia|].
  exists v. rewrite Hv. split; reflexivity.
Qed.

Lemma store_inside map i v :
  0 <= i < Z.of_nat (length map) ->
  store map i v = Ret (<[Z.to_nat i := v]> map).
Proof.
  intros Hi. unfold store.
  destruct (Z.leb_spec 0 i); [|lia].
  destruct (Z.ltb_spec i (Z.of_nat (length map))); [|lia]. reflexivity.
Qed.

Lemma scan_run_spec map s n :
  0 <= s -> s + Z.of_nat n <= Z.of_nat (length map) ->
  exists all_ok, scan_run map s n = Ret all_ok
    /\ (all_ok = true <-> forall i, s <= i < s + Z.of_nat n -> flag map i = Some 0).
Proof.
  revert s. induction n as [|n IH]; intros s Hs Hlen; simpl.
  - exists true. split; [reflexivity|]. split; [intros _ i Hi; lia|reflexivity].
  - destruct (load_inside map s) as (v & Hv & ->); [lia|]. simpl.
    destruct (Z.eqb_spec v 0) as [->|Hne]; simpl.
    + destruct (IH (s + 1)) as (ok & -> & Hok); [lia|lia|].
      exists ok. split; [reflexivity|]. rewrite Hok. split.
      * intros H i Hi. destruct (Z.eq_dec i s) as [->|]; [exact Hv|apply H; lia].
      * intros H i Hi. apply H. lia.
    + exists false. split; [reflexivity|]. split; [discriminate|].
      intros H. specialize (H s ltac:(lia)). congruence.
Qed.

Lemma mark_used_spec map s n :
  0 <= s -> s + Z.of_nat n <= Z.of_nat (length map) ->
  mark_used map s n = Ret (fill map (Z.to_nat s) n 1).
Proof.
  revert map s. induction n as [|n IH]; intros map s Hs Hlen; simpl; [reflexivity|].
  rewrite store_inside by lia. simpl.
  rewrite IH by (rewrite ?length_insert; lia).
  do 3 f_equal. lia.
Qed.

Lemma mark_free_spec map s n :
  0 <= s -> s + Z.of_nat n <= Z.of_nat (length map) ->
  mark_free map s n = Ret (fill map (Z.to_nat s) n 0).
Proof.
  revert map s. induction n as [|n IH]; intros map s Hs Hlen; simpl; [reflexivity|].
  destruct (load_inside map s) as (v & _ & ->); [lia|]. simpl.
  rewrite store_inside by lia. simpl.
  rewrite IH by (rewrite ?length_insert; lia).
  do 3 f_equal. lia.
Qed.

Lemma count_used_spec map i n used :
  0 <= i -> i + Z.of_nat n <= Z.of_nat (length map) ->
  exists total, count_used map i n used = Ret total.
Proof.
  revert i used. induction n as [|n IH]; intros i used Hi Hlen; simpl.
  - eexists; reflexivity.
  - destruct (load_inside map i) as (v & _ & ->); [lia|]. simpl.
    apply IH; lia.
Qed.


(** ** The allocator, call by call *)

Lemma block_addr_bounds s b :
  0 <= s -> 0 <= b -> s + b <= STATIC_POOL_MAX_ENTRIES ->
  aligned_pool_start <= block_addr s
  /\ block_addr s + b * 65536 <= aligned_pool_start + STATIC_POOL_SIZE
  /\ aligned_pool_start + STATIC_POOL_SIZE < 2 ^ ptr_bits
  /\ block_addr s mod 65536 = 0.
Proof.
  intros Hs Hb Hn. unfold block_addr. rewrite block_size_val.
  pose proof max_entries_bounds as (HN & HNs & _).
  pose proof aligned_pool_start_bounds as (Ha & Hal).
  pose proof pool_in_address_space as Hsp. unfold_consts.
  repeat split; nia.
Qed.

Lemma scan_starts_spec mprotect map b prot start n :
  Z.of_nat (length map) = STATIC_POOL_MAX_ENTRIES -> 1 <= b -> 0 <= start ->
  (n <> O -> start + Z.of_nat n <= STATIC_POOL_MAX_ENTRIES - b + 1) ->
  ((forall s, start <= s < start + Z.of_nat n -> ~ free_run map s b)
   /\ scan_starts mprotect map b prot start n = Ret (0, map))
  \/ (exists s, start <= s < start + Z.of_nat n /\ free_run map s b
        /\ (forall s', start <= s' < s -> ~ free_run map s' b)
        /\ scan_starts mprotect map b prot start n = grant mprotect map b prot s).
Proof.
  intros Hlen Hb. revert start.
  induction n as [|n IH]; intros start Hstart Hn; simpl.
  - left. split; [intros s Hs; lia|reflexivity].
  - specialize (Hn ltac:(discriminate)).
    assert (Hnot : ~ free_run map start b ->
      ((forall s, start <= s < start + Z.of_nat (S n) -> ~ free_run map s b)
       /\ scan_starts mprotect map b prot (start + 1) n = Ret (0, map))
      \/ (exists s, start <= s < start + Z.of_nat (S n) /\ free_run map s b
            /\ (forall s', start <= s' < s -> ~ free_run map s' b)
            /\ scan_starts mprotect map b prot (start + 1) n
               = grant mprotect map b prot s)).
    { intros Hnf. destruct (IH (start + 1)) as [(Hno & ->)|(s & Hs & Hfree & Hmin & ->)];
        [lia|lia| |].
      - left. split; [|reflexivity]. intros s Hs.
        destruct (Z.eq_dec s start) as [->|]; [exact Hnf|apply Hno; lia].
      - right. exists s. split; [lia|]. split; [exact Hfree|]. split; [|reflexivity].
        intros s' Hs'. destruct (Z.eq_dec s' start) as [->|]; [exact Hnf|apply Hmin; lia]. }
    destruct (load_inside map start) as (v & Hv & ->); [lia|]. simpl.
    destruct (Z.eqb_spec v 0) as [->|Hne].
    + unfold trips_between.
      destruct (scan_run_spec map start (Z.to_nat (start + b - start)))
        as (ok & -> & Hok); [lia|lia|]. simpl.
      destruct ok.
      * assert (Hfree : free_run map start b).
        { repeat split; [lia|lia|]. intros i Hi. apply Hok; [reflexivity|lia]. }
        right. exists start. split; [lia|]. split; [exact Hfree|].
        split; [intros s' Hs'; lia|].
        rewrite pool_start_check_true. simpl. unfold grant.
        destruct (block_addr_bounds start b) as (B1 & B2 & B3 & _); [lia..|].
        pose proof aligned_pool_start_bounds as (Ha & _).
        pose proof pool_not_null. pose proof max_entries_bounds as (HN & _).
        pose proof ptr_range.
        unfold block_addr in *. rewrite !block_size_val in *.
        rewrite (int_mul_defined start 65536) by lia. simpl.
        rewrite (ptr_add_defined aligned_pool_start (start * 65536)) by lia. simpl.
        rewrite (int_mul_defined b 65536) by lia. simpl.
        rewrite (wrap_uptr_small (b * 65536)) by lia.
        destruct (_ =? 0); [|reflexivity].
        rewrite mark_used_spec by lia. simpl.
        do 4 f_equal. lia.
      * apply Hnot. intros (_ & _ & Hf).
        assert (false = true); [|discriminate].
        apply Hok. intros i Hi. apply Hf. lia.
    + apply Hnot. intros (_ & _ & Hf). specialize (Hf start ltac:(lia)). congruence.
Qed.

(** The three ways a call of the allocator ends. *)
Lemma alloc_cases mprotect map size prot :
  Z.of_nat (length map) = STATIC_POOL_MAX_ENTRIES -> 0 <= size < 2 ^ 32 ->
  let b := size_to_blocks size in
  (b = 0 /\ lj_alloc_from_static_pool mprotect map size prot = Ret (0, map))
  \/ (1 <= b /\ (forall s, ~ free_run map s b)
      /\ lj_alloc_from_static_pool mprotect map size prot = Ret (0, map))
  \/ (1 <= b /\ exists s, first_fit map b s
      /\ lj_alloc_from_static_pool mprotect map size prot = grant mprotect map b prot s).
Proof.
  intros Hlen Hsize b. unfold lj_alloc_from_static_pool. fold b.
  pose proof (size_to_blocks_range size Hsize) as Hb. fold b in Hb.
  destruct (Z.eqb_spec b 0) as [E|E]; [left; split; [exact E|reflexivity]|right].
  assert (Hcount : forall m' : list Z, length m' = length map ->
    (do _u <- count_used m' 0 (trips_between 0 STATIC_POOL_MAX_ENTRIES) 0; Ret tt)
    = Ret tt).
  { intros m' Hm'. unfold trips_between.
    destruct (count_used_spec m' 0 (Z.to_nat (STATIC_POOL_MAX_ENTRIES - 0)) 0)
      as (u & ->); [lia|lia|reflexivity]. }
  assert (Hcount' : forall (m' : list Z) r, length m' = length map ->
    (do _u <- count_used m' 0 (trips_between 0 STATIC_POOL_MAX_ENTRIES) 0; Ret r)
    = Ret (r : Z * list Z)).
  { intros m' r Hm'. specialize (Hcount m' Hm').
    destruct (count_used m' 0 _ 0); simpl in *; congruence. }
  destruct (scan_starts_spec mprotect map b prot 0 (start_trips b))
    as [(Hno & ->)|(s & Hs & Hfree & Hmin & ->)];
    [exact Hlen|lia|lia|unfold start_trips, trips_between; lia| |].
  - left. split; [lia|]. split.
    + intros s Hf. apply (Hno s); [|exact Hf].
      destruct Hf as (H0 & H1 & _). unfold start_trips, trips_between. lia.
    + simpl. apply Hcount'. reflexivity.
  - right. split; [lia|]. exists s. split; [split; [exact Hfree|]|].
    + intros s' Hs'. apply Hmin. lia.
    + unfold grant. destruct (_ =? 0); simpl; apply Hcount';
        [apply fill_length|reflexivity].
Qed.


(** ** The release, call by call *)

Lemma count_used_total (map : list Z) (r : Z * list Z) :
  Z.of_nat (length map) = STATIC_POOL_MAX_ENTRIES ->
  (do _u <- count_used map 0 (trips_between 0 STATIC_POOL_MAX_ENTRIES) 0; Ret r)
  = Ret r.
Proof.
  intros Hlen. unfold trips_between.
  destruct (count_used_spec map 0 (Z.to_nat (STATIC_POOL_MAX_ENTRIES - 0)) 0)
    as (u & ->); [lia|lia|reflexivity].
Qed.

Lemma outside_pool_below p b :
  p < aligned_pool_start -> outside_pool p b = Ret true.
Proof.
  intros Hp. unfold outside_pool.
  destruct (Z.ltb_spec p aligned_pool_start); [reflexivity|lia].
Qed.

(** The bounds test when its arithmetic stays in range. *)
Lemma outside_pool_defined p b :
  aligned_pool_start <= p -> 0 <= b ->
  b * 65536 < 2 ^ 31 -> p + b * 65536 < 2 ^ ptr_bits ->
  outside_pool p b = Ret (aligned_pool_start + STATIC_POOL_SIZE <? p + b * 65536).
Proof.
  intros Hp Hb Hint Hptr. unfold outside_pool.
  destruct (Z.ltb_spec p aligned_pool_start); [lia|].
  pose proof aligned_pool_start_bounds as (Ha & _).
  pose proof pool_not_null. pose proof pool_in_address_space as Hsp.
  unfold sizeof_static_alloc_pool in Hsp. rewrite block_size_val in *.
  assert (0 <= STATIC_POOL_SIZE) by (unfold_consts; lia).
  rewrite (int_mul_defined b 65536) by lia. simpl.
  rewrite (ptr_add_defined p (b * 65536)) by lia. simpl.
  rewrite (ptr_add_defined aligned_pool_start STATIC_POOL_SIZE) by lia.
  reflexivity.
Qed.

(** Releasing the run of [size_to_blocks size] blocks at block [s]. *)
Lemma release_run madvise map size s :
  Z.of_nat (length map) = STATIC_POOL_MAX_ENTRIES -> 0 <= size < 2 ^ 32 ->
  1 <= size_to_blocks size -> 0 <= s ->
  s + size_to_blocks size <= STATIC_POOL_MAX_ENTRIES ->
  lj_release_to_static_pool madvise map (block_addr s) size
  = Ret (0, fill map (Z.to_nat s) (Z.to_nat (size_to_blocks size)) 0).
Proof.
  intros Hlen Hsize Hb Hs Hfit. unfold lj_release_to_static_pool.
  set (b := size_to_blocks size) in *.
  destruct (Z.eqb_spec b 0) as [E|_]; [lia|].
  rewrite pool_start_check_true. simpl.
  destruct (block_addr_bounds s b) as (B1 & B2 & B3 & B4); [lia..|].
  pose proof aligned_pool_start_bounds as (Ha & _).
  pose proof pool_not_null. pose proof max_entries_bounds as (HN & HNs & _).
  pose proof ptr_range. pose proof ptrdiff_range.
  assert (0 <= STATIC_POOL_SIZE) by (unfold_consts; lia).
  rewrite outside_pool_defined by lia. simpl.
  destruct (Z.ltb_spec (aligned_pool_start + STATIC_POOL_SIZE)
              (block_addr s + b * 65536)); [lia|].
  change STATIC_POOL_BLOCK_SIZE_MASK with (Z.ones 16).
  rewrite Z.land_ones by lia. change (2 ^ 16) with 65536.
  rewrite B4. simpl.
  assert (Hd : block_addr s - aligned_pool_start = s * 65536)
    by (unfold block_addr; rewrite block_size_val; lia).
  rewrite ptr_diff_defined by lia. simpl.
  rewrite Hd, block_size_val, Z.quot_mul by lia.
  rewrite (wrap_uint_small s), (wrap_uint_small (s + b)) by lia.
  rewrite (wrap_int_small s), (wrap_uint_small s) by lia.
  destruct (Z.ltb_spec s STATIC_POOL_MAX_ENTRIES); [|lia].
  destruct (Z.leb_spec (s + b) STATIC_POOL_MAX_ENTRIES); [|lia]. simpl.
  unfold trips_between at 1.
  rewrite mark_free_spec by lia. simpl.
  rewrite (int_mul_defined b 65536) by lia. simpl.
  rewrite count_used_total by (rewrite fill_length; exact Hlen).
  do 4 f_equal. lia.
Qed.

(** A pointer below the aligned base is turned away. *)
Lemma release_below madvise map p size :
  p < aligned_pool_start ->
  lj_release_to_static_pool madvise map p size = Ret (1, map).
Proof.
  intros Hp. unfold lj_release_to_static_pool.
  destruct (_ =? 0); [reflexivity|].
  rewrite pool_start_check_true. simpl.
  rewrite outside_pool_below by exact Hp. reflexivity.
Qed.

(** A run that ends beyond the pool is turned away, as long as its end
    [p + size_blocks * STATIC_POOL_MIN_BLOCK_SIZE] is computed without
    leaving the range of [int] and of the pointers. *)
Lemma release_beyond madvise map p size :
  0 <= size < 2 ^ 32 -> aligned_pool_start <= p ->
  size_to_blocks size * 65536 < 2 ^ 31 ->
  p + size_to_blocks size * 65536 < 2 ^ ptr_bits ->
  aligned_pool_start + STATIC_POOL_SIZE < p + size_to_blocks size * 65536 ->
  lj_release_to_static_pool madvise map p size = Ret (1, map).
Proof.
  intros Hsize Hp Hint Hptr Hend. unfold lj_release_to_static_pool.
  pose proof (size_to_blocks_range size Hsize) as Hb.
  set (b := size_to_blocks size) in *.
  destruct (Z.eqb_spec b 0) as [E|_]; [reflexivity|].
  rewrite pool_start_check_true. simpl.
  rewrite outside_pool_defined by lia. simpl.
  destruct (Z.ltb_spec (aligned_pool_start + STATIC_POOL_SIZE) (p + b * 65536)); [|lia].
  reflexivity.
Qed.

(** ** Properties of the allocator *)

Lemma block_addr_not_null s : 0 <= s -> block_addr s <> 0.
Proof.
  intros Hs. unfold block_addr. rewrite block_size_val.
  pose proof aligned_pool_start_bounds as (Ha & _). pose proof pool_not_null. lia.
Qed.

Lemma grant_cases mprotect map b prot s :
  (mprotect (block_addr s) (b * STATIC_POOL_MIN_BLOCK_SIZE) prot = 0
   /\ grant mprotect map b prot s
      = Ret (block_addr s, fill map (Z.to_nat s) (Z.to_nat b) 1))
  \/ (mprotect (block_addr s) (b * STATIC_POOL_MIN_BLOCK_SIZE) prot <> 0
      /\ grant mprotect map b prot s = Ret (0, map)).
Proof.
  unfold grant. destruct (Z.eqb_spec (mprotect (block_addr s) (b * STATIC_POOL_MIN_BLOCK_SIZE) prot) 0);
    [left|right]; split; auto.
Qed.

(** C1. First fit: for every state of the occupancy array and every
    size of at least one block ([b = ceil(size / 65536)] blocks), when
    [mprotect] succeeds, the allocator returns [NULL] exactly when no
    run of [b] free blocks exists in the array, and otherwise returns
    the address [aligned_pool_start + start * 65536] of the smallest
    index [start] whose [b] blocks are all free. *)
Theorem alloc_first_fit mprotect (map : list Z) size prot :
  Z.of_nat (length map) = STATIC_POOL_MAX_ENTRIES ->
  0 <= size < 2 ^ 32 ->
  let b := (size + 65535) / 65536 in
  1 <= b ->
  (forall addr len pr, mprotect addr len pr = 0) ->
  exists p map',
    lj_alloc_from_static_pool mprotect map size prot = Ret (p, map')
    /\ (p = 0 <-> ~ exists s, free_run map s b)
    /\ (p <> 0 -> exists start, first_fit map b start
                    /\ p = aligned_pool_start + start * 65536).
Proof.
  intros Hlen Hsize b Hb Hmp. subst b.
  destruct (alloc_cases mprotect map size prot Hlen Hsize)
    as [(E & _)|[(_ & Hno & ->)|(_ & s & Hff & ->)]];
    rewrite size_to_blocks_eq in * by assumption;
    set (b := (size + 65535) / 65536) in *.
  - lia.
  - exists 0, map. split; [reflexivity|]. split; [|congruence].
    split; [intros _ (s & Hs); exact (Hno s Hs)|reflexivity].
  - destruct (grant_cases mprotect map b prot s) as [(_ & ->)|(Hne & _)];
      [|specialize (Hmp (block_addr s) (b * STATIC_POOL_MIN_BLOCK_SIZE) prot); congruence].
    assert (0 <= s) by apply Hff.
    eexists _, _. split; [reflexivity|].
    pose proof (block_addr_not_null s ltac:(assumption)) as Hnn.
    split.
    + split; [congruence|]. intros Hno. exfalso. apply Hno. exists s. apply Hff.
    + intros _. exists s. split; [exact Hff|reflexivity].
Qed.

(** C3. When a fitting run exists and the [mprotect] call on the run
    the scan stops at fails, the allocator returns [NULL] and the
    occupancy array is the one it was called with. *)
Theorem alloc_mprotect_failure mprotect (map : list Z) size prot :
  Z.of_nat (length map) = STATIC_POOL_MAX_ENTRIES ->
  0 <= size < 2 ^ 32 ->
  let b := (size + 65535) / 65536 in
  (exists s, free_run map s b) ->
  (forall start, first_fit map b start ->
     mprotect (aligned_pool_start + start * 65536) (b * 65536) prot <> 0) ->
  lj_alloc_from_static_pool mprotect map size prot = Ret (0, map).
Proof.
  intros Hlen Hsize b Hex Hmp. subst b.
  destruct (alloc_cases mprotect map size prot Hlen Hsize)
    as [(_ & ->)|[(_ & _ & ->)|(_ & s & Hff & ->)]]; try reflexivity.
  rewrite size_to_blocks_eq in * by assumption.
  set (b := (size + 65535) / 65536) in *.
  destruct (grant_cases mprotect map b prot s) as [(E & _)|(_ & ->)]; [|reflexivity].
  destruct (Hmp s Hff). exact E.
Qed.

(** C4. Every address the allocator returns other than [NULL] is a
    multiple of the block size, lies in
    [aligned_pool_start, aligned_pool_start + STATIC_POOL_SIZE), and so
    does the whole granted range of [ceil(size / 65536)] blocks. *)
Theorem alloc_address_aligned_in_pool mprotect (map map' : list Z) size prot p :
  Z.of_nat (length map) = STATIC_POOL_MAX_ENTRIES ->
  0 <= size < 2 ^ 32 ->
  lj_alloc_from_static_pool mprotect map size prot = Ret (p, map') ->
  p <> 0 ->
  p mod 65536 = 0
  /\ aligned_pool_start <= p < aligned_pool_start + STATIC_POOL_SIZE
  /\ p + (size + 65535) / 65536 * 65536 <= aligned_pool_start + STATIC_POOL_SIZE.
Proof.
  intros Hlen Hsize Hrun Hp.
  destruct (alloc_cases mprotect map size prot Hlen Hsize)
    as [(_ & E)|[(_ & _ & E)|(Hb & s & Hff & E)]];
    rewrite E in Hrun; try (injection Hrun as <- _; congruence).
  destruct (grant_cases mprotect map (size_to_blocks size) prot s) as [(_ & E')|(_ & E')];
    rewrite E' in Hrun; injection Hrun as <- _; [|congruence].
  destruct Hff as ((Hs & Hfit & _) & _).
  destruct (block_addr_bounds s (size_to_blocks size)) as (B1 & B2 & _ & B4); [lia..|].
  rewrite size_to_blocks_eq in * by assumption. lia.
Qed.


(** ** Properties of the release *)

(** An address the allocator returned is the address of a block whose
    run fits the array. *)
Lemma alloc_returns_block mprotect (map map' : list Z) size prot p :
  Z.of_nat (length map) = STATIC_POOL_MAX_ENTRIES ->
  0 <= size < 2 ^ 32 ->
  lj_alloc_from_static_pool mprotect map size prot = Ret (p, map') ->
  p <> 0 ->
  exists s, p = block_addr s /\ first_fit map (size_to_blocks size) s
    /\ 1 <= size_to_blocks size
    /\ map' = fill map (Z.to_nat s) (Z.to_nat (size_to_blocks size)) 1.
Proof.
  intros Hlen Hsize Hrun Hp.
  destruct (alloc_cases mprotect map size prot Hlen Hsize)
    as [(_ & E)|[(_ & _ & E)|(Hb & s & Hff & E)]];
    rewrite E in Hrun; try (injection Hrun as <- _; congruence).
  destruct (grant_cases mprotect map (size_to_blocks size) prot s) as [(_ & E')|(_ & E')];
    rewrite E' in Hrun; injection Hrun as <- <-; [|congruence].
  exists s. auto.
Qed.

Lemma fill_fill map i n v : fill (fill map i n v) i n v = fill map i n v.
Proof.
  apply list_eq. intros j.
  destruct (decide (i <= j < i + n)%nat) as [Hin|Hout].
  - destruct (decide (j < length map)%nat) as [Hlt|Hge].
    + rewrite !fill_lookup_in by (rewrite ?fill_length; lia). reflexivity.
    + rewrite !lookup_ge_None_2 by (rewrite ?fill_length; lia). reflexivity.
  - rewrite fill_lookup_out by exact Hout. reflexivity.
Qed.

(** The bounds test of the release at work.  A release whose address
    lies before [aligned_pool_start], or whose end [p + b * 65536]
    (with [b = ceil(size / 65536)]) lies beyond
    [aligned_pool_start + STATIC_POOL_SIZE] while [b * 65536] fits an
    [int] and [p + b * 65536] stays inside the address space, returns
    the error code 1 and leaves the occupancy array as it was. *)
Lemma release_rejects_outside_pool madvise (map : list Z) p size :
  0 <= size < 2 ^ 32 -> 0 <= p ->
  let b := (size + 65535) / 65536 in
  p < aligned_pool_start
  \/ (b * 65536 < 2 ^ 31 /\ p + b * 65536 < 2 ^ ptr_bits
      /\ aligned_pool_start + STATIC_POOL_SIZE < p + b * 65536) ->
  lj_release_to_static_pool madvise map p size = Ret (1, map).
Proof.
  intros Hsize Hp b [Hlow|(Hint & Hptr & Hend)].
  - apply release_below. exact Hlow.
  - destruct (Z.lt_ge_cases p aligned_pool_start) as [Hlow|Hge];
      [apply release_below; exact Hlow|].
    subst b. rewrite <- size_to_blocks_eq in * by assumption.
    apply release_beyond; assumption.
Qed.

(** C6. Releasing twice the address and size that the allocator
    granted returns 0 both times; the first release clears the blocks
    of the run and no other, and the second leaves the array exactly as
    the first left it. *)
Theorem release_twice mprotect madvise1 madvise2 (map0 map0' map : list Z) size prot p :
  Z.of_nat (length map0) = STATIC_POOL_MAX_ENTRIES ->
  0 <= size < 2 ^ 32 ->
  lj_alloc_from_static_pool mprotect map0 size prot = Ret (p, map0') ->
  p <> 0 ->
  Z.of_nat (length map) = STATIC_POOL_MAX_ENTRIES ->
  exists map1,
    lj_release_to_static_pool madvise1 map p size = Ret (0, map1)
    /\ lj_release_to_static_pool madvise2 map1 p size = Ret (0, map1)
    /\ forall i, 0 <= i ->
         flag map1 i
         = if in_run ((p - aligned_pool_start) / 65536) ((size + 65535) / 65536) i
           then Some 0 else flag map i.
Proof.
  intros Hlen0 Hsize Hrun Hp Hlen.
  destruct (alloc_returns_block _ _ _ _ _ _ Hlen0 Hsize Hrun Hp)
    as (s & -> & ((Hs & Hfit & _) & _) & Hb & _).
  eexists. split; [apply release_run; assumption|].
  split.
  - rewrite release_run by (rewrite ?fill_length; assumption).
    rewrite fill_fill. reflexivity.
  - intros i Hi. rewrite flag_fill by lia.
    rewrite size_to_blocks_eq by assumption.
    replace ((block_addr s - aligned_pool_start) / 65536) with s; [reflexivity|].
    unfold block_addr. rewrite block_size_val. lia.
Qed.

Lemma fill_restore map i n v w :
  (forall j, (i <= j < i + n)%nat -> (j < length map)%nat -> map !! j = Some w) ->
  fill (fill map i n v) i n w = map.
Proof.
  intros Hold. apply list_eq. intros j.
  destruct (decide (i <= j < i + n)%nat) as [Hin|Hout].
  - destruct (decide (j < length map)%nat) as [Hlt|Hge].
    + rewrite fill_lookup_in by (rewrite ?fill_length; lia).
      symmetry. apply Hold; assumption.
    + rewrite !lookup_ge_None_2 by (rewrite ?fill_length; lia). reflexivity.
  - rewrite !fill_lookup_out by exact Hout. reflexivity.
Qed.

Lemma first_fit_unique map b s s' :
  first_fit map b s -> first_fit map b s' -> s = s'.
Proof.
  intros (Hf & Hmin) (Hf' & Hmin').
  destruct (Z.lt_trichotomy s s') as [Hlt|[->|Hgt]]; [|reflexivity|].
  - destruct (Hmin' s); [|exact Hf]. destruct Hf as (H0 & _). lia.
  - destruct (Hmin s'); [|exact Hf']. destruct Hf' as (H0 & _). lia.
Qed.

(** A request whose first fitting run is at [start], with [mprotect]
    accepting that run, is granted it; releasing it with the same size
    restores the array. *)
Lemma alloc_release_at map mprotect madvise size prot start :
  Z.of_nat (length map) = STATIC_POOL_MAX_ENTRIES ->
  0 < size < 2 ^ 32 ->
  first_fit map (size_to_blocks size) start ->
  mprotect (block_addr start) (size_to_blocks size * STATIC_POOL_MIN_BLOCK_SIZE) prot = 0 ->
  let map' := fill map (Z.to_nat start) (Z.to_nat (size_to_blocks size)) 1 in
  lj_alloc_from_static_pool mprotect map size prot = Ret (block_addr start, map')
  /\ lj_release_to_static_pool madvise map' (block_addr start) size = Ret (0, map).
Proof.
  intros Hlen Hsize Hff Hmp map'.
  assert (Hb : 1 <= size_to_blocks size) by (rewrite size_to_blocks_eq; lia).
  destruct Hff as ((Hs & Hfit & Hfree) & Hmin).
  split.
  - destruct (alloc_cases mprotect map size prot Hlen ltac:(lia))
      as [(E & _)|[(_ & Hno & _)|(_ & s & Hff' & ->)]].
    + lia.
    + destruct (Hno start). repeat split; assumption.
    + assert (s = start)
        by (apply (first_fit_unique map (size_to_blocks size)); [exact Hff'|];
            split; [repeat split; assumption|exact Hmin]).
      subst s.
      destruct (grant_cases mprotect map (size_to_blocks size) prot start)
        as [(_ & ->)|(Hne & _)]; [reflexivity|contradiction].
  - unfold map'. rewrite release_run by (rewrite ?fill_length; lia || assumption).
    rewrite fill_restore; [reflexivity|].
    intros j Hj _. specialize (Hfree (Z.of_nat j) ltac:(lia)).
    unfold flag in Hfree. rewrite Nat2Z.id in Hfree. exact Hfree.
Qed.

(** C7. Both entry points count [ceil(size / 65536)] blocks: a request
    whose first fitting run of that many blocks is at [start], with
    [mprotect] accepting it, is granted the address of block [start]
    and sets exactly those flags, and the release with the same size
    clears exactly them again.  In particular a request of half a block
    is granted the first free block, sets that one flag and no other,
    and the release with the same size gives back the array as it was.
    A size of zero makes the allocator return [NULL] and the release
    return the error code 1, the array untouched in both cases. *)
Theorem size_rounding mprotect madvise (map : list Z) prot :
  Z.of_nat (length map) = STATIC_POOL_MAX_ENTRIES ->
  (forall size, 0 <= size < 2 ^ 32 -> size_to_blocks size = (size + 65535) / 65536)
  /\ (forall size start, 0 < size < 2 ^ 32 ->
        let b := (size + 65535) / 65536 in
        let p := aligned_pool_start + start * 65536 in
        first_fit map b start ->
        mprotect p (b * 65536) prot = 0 ->
        exists map',
          lj_alloc_from_static_pool mprotect map size prot = Ret (p, map')
          /\ (forall i, 0 <= i ->
                flag map' i = if in_run start b i then Some 1 else flag map i)
          /\ lj_release_to_static_pool madvise map' p size = Ret (0, map))
  /\ (forall start,
        let p := aligned_pool_start + start * 65536 in
        first_fit map 1 start ->
        mprotect p 65536 prot = 0 ->
        lj_alloc_from_static_pool mprotect map (STATIC_POOL_MIN_BLOCK_SIZE / 2) prot
          = Ret (p, <[Z.to_nat start := 1]> map)
        /\ lj_release_to_static_pool madvise (<[Z.to_nat start := 1]> map) p
             (STATIC_POOL_MIN_BLOCK_SIZE / 2)
           = Ret (0, map))
  /\ lj_alloc_from_static_pool mprotect map 0 prot = Ret (0, map)
  /\ (forall p, lj_release_to_static_pool madvise map p 0 = Ret (1, map)).
Proof.
  intros Hlen. split; [exact size_to_blocks_eq|].
  split; [|split; [|split; [reflexivity|reflexivity]]].
  - intros size start Hsize b p Hff Hmp. subst b p.
    rewrite <- size_to_blocks_eq in * by lia.
    destruct (alloc_release_at map mprotect madvise size prot start Hlen Hsize Hff Hmp)
      as (Halloc & Hrel).
    eexists. split; [exact Halloc|]. split; [|exact Hrel].
    intros i Hi. destruct Hff as ((Hs & Hfit & _) & _).
    apply flag_fill; rewrite ?size_to_blocks_eq in *; lia.
  - intros start p Hff Hmp. subst p.
    assert (Hsize : 0 < STATIC_POOL_MIN_BLOCK_SIZE / 2 < 2 ^ 32)
      by (vm_compute; split; reflexivity).
    exact (alloc_release_at map mprotect madvise (STATIC_POOL_MIN_BLOCK_SIZE / 2)
             prot start Hlen Hsize Hff Hmp).
Qed.

(** C8. Wherever the loader puts the backing array, the aligned base
    is the array's address rounded up to a multiple of the block size,
    and the pool of [STATIC_POOL_SIZE] bytes that starts there lies
    inside the array, which is one block longer than the pool. *)
Theorem aligned_base_inside_region :
  sizeof_static_alloc_pool = STATIC_POOL_SIZE + 65536
  /\ static_alloc_pool <= aligned_pool_start
  /\ aligned_pool_start + STATIC_POOL_SIZE <= static_alloc_pool + sizeof_static_alloc_pool
  /\ aligned_pool_start mod 65536 = 0
  /\ aligned_pool_start < static_alloc_pool + 65536.
Proof.
  pose proof aligned_pool_start_bounds as (Ha & Hal).
  unfold sizeof_static_alloc_pool. rewrite block_size_val. lia.
Qed.

(** C9. The release checks bounds and alignment, not provenance: for
    every block-aligned address inside the pool and every positive size
    whose run of [b = ceil(size / 65536)] blocks ends inside the pool,
    whatever the occupancy array holds, the release returns 0 and
    clears exactly the blocks [index .. index + b - 1], where
    [index = (p - aligned_pool_start) / 65536]. *)
Theorem release_no_provenance madvise (map : list Z) p size :
  Z.of_nat (length map) = STATIC_POOL_MAX_ENTRIES ->
  0 < size < 2 ^ 32 ->
  p mod 65536 = 0 ->
  aligned_pool_start <= p < aligned_pool_start + STATIC_POOL_SIZE ->
  let b := (size + 65535) / 65536 in
  let index := (p - aligned_pool_start) / 65536 in
  p + b * 65536 <= aligned_pool_start + STATIC_POOL_SIZE ->
  exists map',
    lj_release_to_static_pool madvise map p size = Ret (0, map')
    /\ length map' = length map
    /\ forall i, 0 <= i ->
         flag map' i = if in_run index b i then Some 0 else flag map i.
Proof.
  intros Hlen Hsize Hal Hp b index Hend.
  pose proof aligned_pool_start_bounds as (_ & Ha).
  pose proof max_entries_bounds as (HN & _ & HNs).
  assert (Hpa : p = block_addr index)
    by (unfold block_addr, index; rewrite block_size_val; lia).
  assert (Hb : size_to_blocks size = b) by (apply size_to_blocks_eq; lia).
  assert (1 <= b) by (unfold b; lia).
  assert (0 <= index) by (unfold index; lia).
  assert (index + b <= STATIC_POOL_MAX_ENTRIES) by (unfold index in *; lia).
  eexists. rewrite Hpa at 1. rewrite release_run by (rewrite ?Hb; lia).
  split; [reflexivity|]. split; [apply fill_length|].
  intros i Hi. rewrite Hb. apply flag_fill; lia.
Qed.

(** ** Round trips *)

Lemma block_addr_inj s s' : block_addr s = block_addr s' -> s = s'.
Proof. unfold block_addr. rewrite block_size_val. lia. Qed.

Lemma inv_initial : pool_inv (occupancy initial_state) (grants initial_state) [].
Proof.
  pose proof max_entries_bounds as (HN & _). simpl.
  split.
  - rewrite length_replicate. lia.
  - intros k Hk. inversion Hk.
  - intros k p size Hk. rewrite lookup_nil in Hk. discriminate.
  - intros i v Hi Hv Hne. apply lookup_replicate_1 in Hv as (-> & _). congruence.
  - intros k k' s s' size size' _ Hk. rewrite lookup_nil in Hk. discriminate.
Qed.

(** A request that came back with [NULL]. *)
Lemma inv_alloc_null map gr released size :
  pool_inv map gr released -> 0 <= size < 2 ^ 32 ->
  pool_inv map (gr ++ [(0, size)]) released.
Proof.
  intros [I1 I0 I2 I3 I4] Hsize. split.
  - exact I1.
  - intros k Hk. rewrite length_app. specialize (I0 k Hk). lia.
  - intros k p sz Hk Hrel. apply lookup_snoc_Some in Hk as [(_ & Hk)|(_ & Hk)].
    + exact (I2 k p sz Hk Hrel).
    + injection Hk as <- <-. split; [exact Hsize|congruence].
  - intros i v Hi Hv Hne. destruct (I3 i v Hi Hv Hne) as (k & s & sz & Hk & Hrest).
    exists k, s, sz. split; [|exact Hrest].
    apply lookup_snoc_Some. left. split; [eapply lookup_lt_Some; exact Hk|exact Hk].
  - intros k k' s s' sz sz' Hne Hk Hk' Hr Hr' Hs Hs'.
    apply lookup_snoc_Some in Hk as [(_ & Hk)|(_ & Hk)];
      [|injection Hk as Hk _; symmetry in Hk; apply block_addr_not_null in Hk; [tauto|lia]].
    apply lookup_snoc_Some in Hk' as [(_ & Hk')|(_ & Hk')];
      [|injection Hk' as Hk' _; symmetry in Hk'; apply block_addr_not_null in Hk'; [tauto|lia]].
    exact (I4 k k' s s' sz sz' Hne Hk Hk' Hr Hr' Hs Hs').
Qed.

(** A request that was granted the run at [s]. *)
Lemma inv_alloc_grant map gr released size s :
  pool_inv map gr released -> 0 <= size < 2 ^ 32 ->
  1 <= size_to_blocks size -> free_run map s (size_to_blocks size) ->
  pool_inv (fill map (Z.to_nat s) (Z.to_nat (size_to_blocks size)) 1)
           (gr ++ [(block_addr s, size)]) released.
Proof.
  intros [I1 I0 I2 I3 I4] Hsize Hb (Hs & Hfit & Hfree).
  set (b := size_to_blocks size) in *.
  assert (Hflag : forall i, 0 <= i ->
    flag (fill map (Z.to_nat s) (Z.to_nat b) 1) i
    = if in_run s b i then Some 1 else flag map i)
    by (intros i Hi; apply flag_fill; lia).
  assert (Hold : forall k s' sz, gr !! k = Some (block_addr s', sz) ->
    k ∉ released -> 0 <= s' -> s' + size_to_blocks sz <= s \/ s + b <= s').
  { intros k s' sz Hk Hrel Hs'.
    destruct (I2 _ _ _ Hk Hrel) as (_ & Hsh).
    destruct (Hsh (block_addr_not_null s' Hs')) as (s'' & E & _ & Hb' & _ & Hones).
    apply block_addr_inj in E. subst s''.
    destruct (Z.le_gt_cases (s' + size_to_blocks sz) s) as [|H1]; [left; assumption|].
    destruct (Z.le_gt_cases (s + b) s') as [|H2]; [right; assumption|].
    exfalso. pose proof (Hones (Z.max s s') ltac:(lia)) as F1.
    pose proof (Hfree (Z.max s s') ltac:(lia)) as F0. congruence. }
  split.
  - rewrite fill_length. exact I1.
  - intros k Hk. rewrite length_app. specialize (I0 k Hk). lia.
  - intros k p sz Hk Hrel. apply lookup_snoc_Some in Hk as [(_ & Hk)|(_ & Hk)].
    + destruct (I2 k p sz Hk Hrel) as (Hsz & Hsh). split; [exact Hsz|].
      intros Hp. destruct (Hsh Hp) as (s' & E & Hs' & Hb' & Hfit' & Hones).
      exists s'. repeat (split; [assumption|]).
      intros i Hi. rewrite Hflag by lia. destruct (in_run s b i); [reflexivity|].
      apply Hones. exact Hi.
    + injection Hk as <- <-. split; [exact Hsize|]. intros _.
      exists s. repeat (split; [first [assumption|reflexivity]|]).
      intros i Hi. rewrite Hflag by lia. unfold in_run.
      destruct (Z.leb_spec s i); [|lia]. destruct (Z.ltb_spec i (s + b)); [|lia].
      reflexivity.
  - intros i v Hi Hv Hne. rewrite Hflag in Hv by exact Hi.
    unfold in_run in Hv.
    destruct (Z.leb_spec s i); [destruct (Z.ltb_spec i (s + b))|]; simpl in Hv.
    + exists (length gr), s, size. split; [apply lookup_snoc_Some; right; auto|].
      split; [intros Hin; specialize (I0 _ Hin); lia|]. split; [exact Hs|lia].
    + destruct (I3 i v Hi Hv Hne) as (k & s' & sz & Hk & Hrest).
      exists k, s', sz. split; [|exact Hrest].
      apply lookup_snoc_Some. left. split; [eapply lookup_lt_Some; exact Hk|exact Hk].
    + destruct (I3 i v Hi Hv Hne) as (k & s' & sz & Hk & Hrest).
      exists k, s', sz. split; [|exact Hrest].
      apply lookup_snoc_Some. left. split; [eapply lookup_lt_Some; exact Hk|exact Hk].
  - intros k k' s1 s2 sz1 sz2 Hne Hk Hk' Hr Hr' Hs1 Hs2.
    apply lookup_snoc_Some in Hk as [(Hlt & Hk)|(Hat & Hk)];
      apply lookup_snoc_Some in Hk' as [(Hlt' & Hk')|(Hat' & Hk')].
    + exact (I4 k k' s1 s2 sz1 sz2 Hne Hk Hk' Hr Hr' Hs1 Hs2).
    + injection Hk' as E <-. apply block_addr_inj in E. subst s2.
      destruct (Hold k s1 sz1 Hk Hr Hs1); [left|right]; assumption.
    + injection Hk as E <-. apply block_addr_inj in E. subst s1.
      destruct (Hold k' s2 sz2 Hk' Hr' Hs2); [right|left]; assumption.
    + congruence.
Qed.

(** Handing back a request that had come back with [NULL]. *)
Lemma inv_release_null map gr released k size :
  pool_inv map gr released -> gr !! k = Some (0, size) ->
  pool_inv map gr (k :: released).
Proof.
  intros [I1 I0 I2 I3 I4] Hk. split.
  - exact I1.
  - intros k' Hin. apply elem_of_cons in Hin as [->|Hin];
      [eapply lookup_lt_Some; exact Hk|exact (I0 k' Hin)].
  - intros k' p sz Hk' Hrel. apply not_elem_of_cons in Hrel as (_ & Hrel).
    exact (I2 k' p sz Hk' Hrel).
  - intros i v Hi Hv Hne. destruct (I3 i v Hi Hv Hne) as (k' & s & sz & Hk' & Hrel & Hs & Hin).
    exists k', s, sz. split; [exact Hk'|]. split; [|split; assumption].
    apply not_elem_of_cons. split; [|exact Hrel].
    intros ->. rewrite Hk in Hk'. injection Hk' as E _.
    apply (block_addr_not_null s Hs). congruence.
  - intros k1 k2 s1 s2 sz1 sz2 Hne Hk1 Hk2 Hr1 Hr2.
    apply not_elem_of_cons in Hr1 as (_ & Hr1). apply not_elem_of_cons in Hr2 as (_ & Hr2).
    exact (I4 k1 k2 s1 s2 sz1 sz2 Hne Hk1 Hk2 Hr1 Hr2).
Qed.

(** Handing back a granted run. *)
Lemma inv_release_grant map gr released k s size :
  pool_inv map gr released -> gr !! k = Some (block_addr s, size) ->
  k ∉ released -> 0 <= s ->
  pool_inv (fill map (Z.to_nat s) (Z.to_nat (size_to_blocks size)) 0) gr (k :: released).
Proof.
  intros [I1 I0 I2 I3 I4] Hk Hrel Hs.
  destruct (I2 _ _ _ Hk Hrel) as (Hsize & Hsh).
  destruct (Hsh (block_addr_not_null s Hs)) as (s0 & E & _ & Hb & Hfit & Hones).
  apply block_addr_inj in E. subst s0.
  set (b := size_to_blocks size) in *.
  assert (Hflag : forall i, 0 <= i ->
    flag (fill map (Z.to_nat s) (Z.to_nat b) 0) i
    = if in_run s b i then Some 0 else flag map i)
    by (intros i Hi; apply flag_fill; lia).
  assert (Hout : forall i, ~ s <= i < s + b -> in_run s b i = false).
  { intros i Hi. unfold in_run.
    destruct (Z.leb_spec s i); [destruct (Z.ltb_spec i (s + b))|]; simpl; [lia|reflexivity..]. }
  split.
  - rewrite fill_length. exact I1.
  - intros k' Hin. apply elem_of_cons in Hin as [->|Hin];
      [eapply lookup_lt_Some; exact Hk|exact (I0 k' Hin)].
  - intros k' p sz Hk' Hrel'. apply not_elem_of_cons in Hrel' as (Hne & Hrel').
    destruct (I2 k' p sz Hk' Hrel') as (Hsz & Hsh'). split; [exact Hsz|].
    intros Hp. destruct (Hsh' Hp) as (s' & -> & Hs' & Hb' & Hfit' & Hones').
    exists s'. repeat (split; [first [assumption|reflexivity]|]).
    intros i Hi. rewrite Hflag by lia.
    destruct (I4 k' k s' s sz size Hne Hk' Hk Hrel' Hrel Hs' Hs);
      rewrite Hout by (unfold b; lia); apply Hones'; exact Hi.
  - intros i v Hi Hv Hne. rewrite Hflag in Hv by exact Hi.
    destruct (in_run s b i) eqn:Hin; [congruence|].
    destruct (I3 i v Hi Hv Hne) as (k' & s' & sz & Hk' & Hrel' & Hs' & Hin').
    exists k', s', sz. split; [exact Hk'|]. split; [|split; assumption].
    apply not_elem_of_cons. split; [|exact Hrel'].
    intros ->. rewrite Hk in Hk'. injection Hk' as E <-.
    apply block_addr_inj in E. subst s'. fold b in Hin'.
    unfold in_run in Hin.
    destruct (Z.leb_spec s i); [destruct (Z.ltb_spec i (s + b))|]; simpl in Hin;
      [discriminate|lia|lia].
  - intros k1 k2 s1 s2 sz1 sz2 Hne Hk1 Hk2 Hr1 Hr2.
    apply not_elem_of_cons in Hr1 as (_ & Hr1). apply not_elem_of_cons in Hr2 as (_ & Hr2).
    exact (I4 k1 k2 s1 s2 sz1 sz2 Hne Hk1 Hk2 Hr1 Hr2).
Qed.

(** Once everything is handed back, every flag is clear. *)
Lemma inv_all_released map gr released :
  pool_inv map gr released ->
  (forall k, (k < length gr)%nat -> k ∈ released) ->
  map = occupancy initial_state.
Proof.
  intros [I1 I0 I2 I3 I4] Hall. simpl. apply list_eq. intros j.
  destruct (decide (j < length map)%nat) as [Hlt|Hge].
  - rewrite lookup_replicate_2 by lia.
    destruct (lookup_lt_is_Some_2 map j Hlt) as (v & Hv). rewrite Hv. f_equal.
    destruct (Z.eq_dec v 0) as [|Hne]; [assumption|exfalso].
    destruct (I3 (Z.of_nat j) v) as (k & s & sz & Hk & Hrel & _);
      [lia|unfold flag; rewrite Nat2Z.id; exact Hv|exact Hne|].
    apply Hrel, Hall. eapply lookup_lt_Some. exact Hk.
  - rewrite lookup_ge_None_2 by lia. symmetry. apply lookup_replicate_None. lia.
Qed.


Lemma run_paired calls st released :
  sizes_ok calls = true ->
  pool_inv (occupancy st) (grants st) released ->
  paired calls (length (grants st)) released = true ->
  exists gr, run calls st = Ret (PoolState (occupancy initial_state) gr).
Proof.
  revert st released.
  induction calls as [|[size prot mprotect|k madvise] calls IH];
    intros [map gr] released Hsizes Hinv Hpaired; simpl in *.
  - exists gr. do 2 f_equal. apply (inv_all_released map gr released Hinv).
    intros k Hk. rewrite forallb_forall in Hpaired.
    specialize (Hpaired k). rewrite bool_decide_eq_true in Hpaired.
    apply Hpaired, in_seq. lia.
  - apply andb_prop in Hsizes as (Hsize & Hsizes).
    apply andb_prop in Hsize as (Hlo & Hhi).
    apply Z.leb_le in Hlo. apply Z.ltb_lt in Hhi.
    assert (Hlen : length (gr ++ [(0, size)]) = S (length gr))
      by (rewrite length_app; simpl; lia).
    destruct (alloc_cases mprotect map size prot (inv_length _ _ _ Hinv) (conj Hlo Hhi))
      as [(_ & ->)|[(_ & _ & ->)|(Hb & s & (Hfree & _) & ->)]]; simpl.
    + apply (IH (PoolState map (gr ++ [(0, size)])) released Hsizes); simpl.
      * apply inv_alloc_null; [exact Hinv|lia].
      * rewrite Hlen. exact Hpaired.
    + apply (IH (PoolState map (gr ++ [(0, size)])) released Hsizes); simpl.
      * apply inv_alloc_null; [exact Hinv|lia].
      * rewrite Hlen. exact Hpaired.
    + destruct (grant_cases mprotect map (size_to_blocks size) prot s) as [(_ & ->)|(_ & ->)];
        simpl.
      * apply (IH (PoolState _ (gr ++ [(block_addr s, size)])) released Hsizes); simpl.
        -- apply inv_alloc_grant; [exact Hinv|lia|exact Hb|exact Hfree].
        -- rewrite length_app. simpl. rewrite Nat.add_1_r. exact Hpaired.
      * apply (IH (PoolState map (gr ++ [(0, size)])) released Hsizes); simpl.
        -- apply inv_alloc_null; [exact Hinv|lia].
        -- rewrite Hlen. exact Hpaired.
  - apply andb_prop in Hpaired as (Hk & Hpaired).
    apply andb_prop in Hk as (Hk & Hrel).
    rewrite bool_decide_eq_true in Hk.
    rewrite negb_true_iff, bool_decide_eq_false in Hrel.
    destruct (lookup_lt_is_Some_2 gr k Hk) as ([p size] & Hgr). rewrite Hgr.
    destruct (inv_shape _ _ _ Hinv k p size Hgr Hrel) as (Hsize & Hsh).
    destruct (Z.eq_dec p 0) as [->|Hp].
    + rewrite release_below
        by (pose proof aligned_pool_start_bounds; pose proof pool_not_null; lia).
      simpl. apply (IH (PoolState map gr) (k :: released) Hsizes); simpl.
      * eapply inv_release_null; [exact Hinv|exact Hgr].
      * exact Hpaired.
    + destruct (Hsh Hp) as (s & -> & Hs & Hb & Hfit & _).
      rewrite release_run by (try apply (inv_length _ _ _ Hinv); assumption).
      simpl. apply (IH (PoolState _ gr) (k :: released) Hsizes); simpl.
      * apply inv_release_grant; assumption.
      * exact Hpaired.
Qed.

(** C2. Round trip: start from the zero-initialised occupancy array
    and run any sequence of requests whose block counts sum to at most
    [STATIC_POOL_MAX_ENTRIES], each of them handed back later, once,
    with the address it returned and the size it was made with.  Every
    call returns, and at the end the array is all zero again. *)
Theorem round_trip calls :
  sizes_ok calls = true ->
  paired calls 0 [] = true ->
  total_blocks calls <= STATIC_POOL_MAX_ENTRIES ->
  exists gr,
    run calls initial_state
    = Ret (PoolState (replicate (Z.to_nat STATIC_POOL_MAX_ENTRIES) 0) gr).
Proof.
  intros Hsizes Hpaired _.
  apply (run_paired calls initial_state [] Hsizes inv_initial Hpaired).
Qed.

(** ** More on the allocator *)

Lemma block_addr_index s :
  (block_addr s - aligned_pool_start) / 65536 = s.
Proof. unfold block_addr. rewrite block_size_val. lia. Qed.

Lemma in_run_true s b i : in_run s b i = true <-> s <= i < s + b.
Proof.
  unfold in_run. rewrite andb_true_iff, Z.leb_le, Z.ltb_lt. reflexivity.
Qed.

(** X1. Every call of the allocator returns: the [assert0] on the pool
    geometry never fires and no index leaves the array.  The array
    keeps its length, and a [NULL] result leaves it as it was, whatever
    made the call fail. *)
Theorem alloc_returns mprotect (map : list Z) size prot :
  Z.of_nat (length map) = STATIC_POOL_MAX_ENTRIES ->
  0 <= size < 2 ^ 32 ->
  exists p map',
    lj_alloc_from_static_pool mprotect map size prot = Ret (p, map')
    /\ length map' = length map
    /\ (p = 0 -> map' = map).
Proof.
  intros Hlen Hsize.
  destruct (alloc_cases mprotect map size prot Hlen Hsize)
    as [(_ & ->)|[(_ & _ & ->)|(_ & s & Hff & ->)]];
    try (exists 0, map; repeat split; reflexivity).
  destruct (grant_cases mprotect map (size_to_blocks size) prot s) as [(_ & ->)|(_ & ->)];
    [|exists 0, map; repeat split; reflexivity].
  eexists _, _. split; [reflexivity|]. split; [apply fill_length|].
  intros Hp. destruct (block_addr_not_null s); [apply Hff|exact Hp].
Qed.

(** X2. A granted request took a run that was free, set the flags of
    exactly that run, and left every other flag alone. *)
Theorem alloc_marks_exactly_run mprotect (map map' : list Z) size prot p :
  Z.of_nat (length map) = STATIC_POOL_MAX_ENTRIES ->
  0 <= size < 2 ^ 32 ->
  lj_alloc_from_static_pool mprotect map size prot = Ret (p, map') ->
  p <> 0 ->
  let s := (p - aligned_pool_start) / 65536 in
  let b := (size + 65535) / 65536 in
  (forall i, s <= i < s + b -> flag map i = Some 0)
  /\ forall i, 0 <= i ->
       flag map' i = if in_run s b i then Some 1 else flag map i.
Proof.
  intros Hlen Hsize Hrun Hp s b.
  destruct (alloc_returns_block _ _ _ _ _ _ Hlen Hsize Hrun Hp)
    as (s0 & -> & ((Hs & Hfit & Hfree) & _) & Hb & ->).
  subst s b. rewrite block_addr_index, <- size_to_blocks_eq by assumption.
  split; [exact Hfree|].
  intros i Hi. apply flag_fill; lia.
Qed.

(** X3. A request is granted only after [mprotect] accepted the returned
    address with the block-rounded length and the requested
    protection. *)
Theorem alloc_granted_after_mprotect mprotect (map map' : list Z) size prot p :
  Z.of_nat (length map) = STATIC_POOL_MAX_ENTRIES ->
  0 <= size < 2 ^ 32 ->
  lj_alloc_from_static_pool mprotect map size prot = Ret (p, map') ->
  p <> 0 ->
  mprotect p ((size + 65535) / 65536 * 65536) prot = 0.
Proof.
  intros Hlen Hsize Hrun Hp.
  destruct (alloc_cases mprotect map size prot Hlen Hsize)
    as [(_ & E)|[(_ & _ & E)|(Hb & s & Hff & E)]];
    rewrite E in Hrun; try (injection Hrun as <- _; congruence).
  destruct (grant_cases mprotect map (size_to_blocks size) prot s) as [(Hmp & E')|(_ & E')];
    rewrite E' in Hrun; injection Hrun as <- _; [|congruence].
  rewrite <- size_to_blocks_eq by assumption. exact Hmp.
Qed.

(** X4. Releasing a granted run with the size it was requested with, or
    with any size that rounds to the same number of blocks, gives back
    the array exactly as it was before the request. *)
Theorem alloc_then_release mprotect madvise (map map' : list Z) size size' prot p :
  Z.of_nat (length map) = STATIC_POOL_MAX_ENTRIES ->
  0 <= size < 2 ^ 32 ->
  lj_alloc_from_static_pool mprotect map size prot = Ret (p, map') ->
  p <> 0 ->
  0 <= size' < 2 ^ 32 ->
  (size' + 65535) / 65536 = (size + 65535) / 65536 ->
  lj_release_to_static_pool madvise map' p size' = Ret (0, map).
Proof.
  intros Hlen Hsize Hrun Hp Hsize' Hsame.
  destruct (alloc_returns_block _ _ _ _ _ _ Hlen Hsize Hrun Hp)
    as (s & -> & ((Hs & Hfit & Hfree) & _) & Hb & ->).
  rewrite <- !size_to_blocks_eq in Hsame by assumption.
  rewrite release_run by (rewrite ?fill_length, ?Hsame; assumption).
  rewrite Hsame, fill_restore; [reflexivity|].
  intros j Hj _. specialize (Hfree (Z.of_nat j) ltac:(lia)).
  unfold flag in Hfree. rewrite Nat2Z.id in Hfree. exact Hfree.
Qed.

(** X5. Two requests granted one after the other never share a byte. *)
Theorem alloc_twice_disjoint mprotect1 mprotect2 (map map1 map2 : list Z)
    size1 prot1 size2 prot2 p1 p2 :
  Z.of_nat (length map) = STATIC_POOL_MAX_ENTRIES ->
  0 <= size1 < 2 ^ 32 -> 0 <= size2 < 2 ^ 32 ->
  lj_alloc_from_static_pool mprotect1 map size1 prot1 = Ret (p1, map1) ->
  p1 <> 0 ->
  lj_alloc_from_static_pool mprotect2 map1 size2 prot2 = Ret (p2, map2) ->
  p2 <> 0 ->
  p1 + (size1 + 65535) / 65536 * 65536 <= p2
  \/ p2 + (size2 + 65535) / 65536 * 65536 <= p1.
Proof.
  intros Hlen Hsize1 Hsize2 Hrun1 Hp1 Hrun2 Hp2.
  destruct (alloc_returns_block _ _ _ _ _ _ Hlen Hsize1 Hrun1 Hp1)
    as (s1 & -> & ((Hs1 & Hfit1 & _) & _) & Hb1 & ->).
  assert (Hlen1 : Z.of_nat (length (fill map (Z.to_nat s1)
                     (Z.to_nat (size_to_blocks size1)) 1)) = STATIC_POOL_MAX_ENTRIES)
    by (rewrite fill_length; exact Hlen).
  destruct (alloc_returns_block _ _ _ _ _ _ Hlen1 Hsize2 Hrun2 Hp2)
    as (s2 & -> & ((Hs2 & Hfit2 & Hfree2) & _) & Hb2 & _).
  rewrite <- !size_to_blocks_eq by assumption.
  set (b1 := size_to_blocks size1) in *. set (b2 := size_to_blocks size2) in *.
  unfold block_addr. rewrite block_size_val.
  destruct (Z.le_gt_cases (s1 + b1) s2) as [|H1]; [left; lia|].
  destruct (Z.le_gt_cases (s2 + b2) s1) as [|H2]; [right; lia|].
  exfalso. specialize (Hfree2 (Z.max s1 s2) ltac:(lia)).
  rewrite flag_fill in Hfree2 by lia.
  assert (Hin : in_run s1 b1 (Z.max s1 s2) = true) by (apply in_run_true; lia).
  rewrite Hin in Hfree2. discriminate.
Qed.

(** X6. When no flag of the array is zero, every request of at least one
    byte comes back with [NULL]. *)
Theorem alloc_exhausted mprotect (map : list Z) size prot :
  Z.of_nat (length map) = STATIC_POOL_MAX_ENTRIES ->
  0 < size < 2 ^ 32 ->
  (forall i, 0 <= i < STATIC_POOL_MAX_ENTRIES -> flag map i <> Some 0) ->
  lj_alloc_from_static_pool mprotect map size prot = Ret (0, map).
Proof.
  intros Hlen Hsize Hfull.
  destruct (alloc_cases mprotect map size prot Hlen ltac:(lia))
    as [(_ & ->)|[(_ & _ & ->)|(Hb & s & ((Hs & Hfit & Hfree) & _) & _)]];
    try reflexivity.
  destruct (Hfull s ltac:(lia)). apply Hfree. lia.
Qed.

(** A free run at [h] makes the allocator grant a run that starts at
    [h] or below, when [mprotect] accepts. *)
Lemma alloc_below_free_run mprotect (map : list Z) size prot h :
  Z.of_nat (length map) = STATIC_POOL_MAX_ENTRIES ->
  0 <= size < 2 ^ 32 ->
  1 <= size_to_blocks size ->
  free_run map h (size_to_blocks size) ->
  (forall addr len pr, mprotect addr len pr = 0) ->
  exists s, 0 <= s <= h /\ free_run map s (size_to_blocks size)
    /\ lj_alloc_from_static_pool mprotect map size prot
       = Ret (block_addr s, fill map (Z.to_nat s) (Z.to_nat (size_to_blocks size)) 1).
Proof.
  intros Hlen Hsize Hb Hfree Hmp.
  destruct (alloc_cases mprotect map size prot Hlen Hsize)
    as [(E & _)|[(_ & Hno & _)|(_ & s & (Hf & Hmin) & ->)]].
  - lia.
  - destruct (Hno h Hfree).
  - exists s. split.
    + split; [apply Hf|].
      destruct (Z.le_gt_cases s h) as [|Hgt]; [assumption|].
      destruct (Hmin h); [|exact Hfree]. destruct Hfree as (H0 & _). lia.
    + split; [exact Hf|].
      destruct (grant_cases mprotect map (size_to_blocks size) prot s) as [(_ & ->)|(Hne & _)];
        [reflexivity|].
      destruct Hne. apply Hmp.
Qed.

(** ** More on the release *)

(** X7. A run that was just released can be requested again at once: with
    [mprotect] accepting, a request of the same size is granted, at the
    released address or below it. *)
Theorem release_then_alloc madvise mprotect (map : list Z) p size prot :
  Z.of_nat (length map) = STATIC_POOL_MAX_ENTRIES ->
  0 < size < 2 ^ 32 ->
  p mod 65536 = 0 ->
  aligned_pool_start <= p ->
  p + (size + 65535) / 65536 * 65536 <= aligned_pool_start + STATIC_POOL_SIZE ->
  (forall addr len pr, mprotect addr len pr = 0) ->
  exists map1 p' map2,
    lj_release_to_static_pool madvise map p size = Ret (0, map1)
    /\ lj_alloc_from_static_pool mprotect map1 size prot = Ret (p', map2)
    /\ p' <> 0 /\ p' <= p.
Proof.
  intros Hlen Hsize Hal Hlo Hend Hmp.
  pose proof aligned_pool_start_bounds as (_ & Ha).
  pose proof max_entries_bounds as (HN & _ & HNs).
  set (index := (p - aligned_pool_start) / 65536).
  assert (Hpa : p = block_addr index)
    by (unfold block_addr, index; rewrite block_size_val; lia).
  rewrite <- size_to_blocks_eq in Hend by lia.
  set (b := size_to_blocks size) in *.
  assert (1 <= b) by (unfold b; rewrite size_to_blocks_eq; lia).
  assert (0 <= index) by (unfold index; lia).
  assert (index + b <= STATIC_POOL_MAX_ENTRIES) by (unfold index in *; lia).
  pose proof (release_run madvise map size index Hlen ltac:(lia) ltac:(assumption)
                ltac:(assumption) ltac:(assumption)) as Hrel.
  rewrite <- Hpa in Hrel. fold b in Hrel.
  destruct (alloc_below_free_run mprotect (fill map (Z.to_nat index) (Z.to_nat b) 0)
              size prot index) as (s & Hs & _ & E); fold b; try assumption; try lia.
  - rewrite fill_length. exact Hlen.
  - split; [assumption|]. split; [assumption|].
    intros i Hi. rewrite flag_fill by lia.
    assert (Hin : in_run index b i = true) by (apply in_run_true; lia).
    rewrite Hin. reflexivity.
  - eexists _, _, _. split; [exact Hrel|]. split; [exact E|].
    split; [apply block_addr_not_null; lia|].
    rewrite Hpa. unfold block_addr. rewrite block_size_val. lia.
Qed.

Lemma release_misaligned madvise (map : list Z) p size :
  0 <= size < 2 ^ 32 -> 1 <= size_to_blocks size ->
  aligned_pool_start <= p ->
  p + size_to_blocks size * 65536 <= aligned_pool_start + STATIC_POOL_SIZE ->
  p mod 65536 <> 0 ->
  lj_release_to_static_pool madvise map p size = AssertFail.
Proof.
  intros Hsize Hb Hlo Hend Hal. unfold lj_release_to_static_pool.
  set (b := size_to_blocks size) in *.
  destruct (Z.eqb_spec b 0) as [E|_]; [lia|].
  rewrite pool_start_check_true. simpl.
  pose proof aligned_pool_start_bounds as (Ha & _).
  pose proof pool_not_null. pose proof pool_in_address_space as Hsp.
  pose proof pool_size_int as Hint. unfold sizeof_static_alloc_pool in Hsp, Hint.
  rewrite block_size_val in Hsp, Hint.
  assert (0 <= STATIC_POOL_SIZE) by (unfold_consts; lia).
  rewrite outside_pool_defined by lia. simpl.
  destruct (Z.ltb_spec (aligned_pool_start + STATIC_POOL_SIZE) (p + b * 65536)); [lia|].
  change STATIC_POOL_BLOCK_SIZE_MASK with (Z.ones 16).
  rewrite Z.land_ones by lia. change (2 ^ 16) with 65536.
  destruct (Z.eqb_spec (p mod 65536) 0); [contradiction|reflexivity].
Qed.

(** X8. As long as the arithmetic of its bounds test stays in range
    (the address lies before [aligned_pool_start], or
    [size_blocks * 65536] fits an [int] and [p + size_blocks * 65536]
    stays inside the address space), a release ends in one of three
    ways: the process aborts on an assertion, the call returns 1 and
    the array is as it was, or the call returns 0 and every flag is
    either as it was or cleared.  Such a release never sets a flag and
    never changes the length of the array. *)
Theorem release_only_clears madvise (map : list Z) p size :
  Z.of_nat (length map) = STATIC_POOL_MAX_ENTRIES ->
  0 <= size < 2 ^ 32 -> 0 <= p ->
  let b := (size + 65535) / 65536 in
  p < aligned_pool_start
  \/ (b * 65536 < 2 ^ 31 /\ p + b * 65536 < 2 ^ ptr_bits) ->
  lj_release_to_static_pool madvise map p size = AssertFail
  \/ lj_release_to_static_pool madvise map p size = Ret (1, map)
  \/ exists map',
       lj_release_to_static_pool madvise map p size = Ret (0, map')
       /\ length map' = length map
       /\ forall i, 0 <= i -> flag map' i = flag map i \/ flag map' i = Some 0.
Proof.
  intros Hlen Hsize Hp b Hrange.
  destruct (Z.lt_ge_cases p aligned_pool_start) as [Hlow|Hge];
    [right; left; apply release_below; exact Hlow|].
  destruct Hrange as [Hlow|(Hint & Hptr)]; [lia|].
  subst b. rewrite <- size_to_blocks_eq in * by assumption.
  pose proof (size_to_blocks_range size Hsize) as Hb.
  set (b := size_to_blocks size) in *.
  destruct (Z.eq_dec b 0) as [Hz|Hnz].
  { right; left. unfold lj_release_to_static_pool. fold b. rewrite Hz. reflexivity. }
  destruct (Z.lt_ge_cases (aligned_pool_start + STATIC_POOL_SIZE) (p + b * 65536))
    as [Hout|Hin]; [right; left; apply release_beyond; assumption|].
  destruct (Z.eq_dec (p mod 65536) 0) as [Hal|Hal];
    [|left; apply release_misaligned; try assumption; lia].
  right; right.
  pose proof aligned_pool_start_bounds as (_ & Ha).
  pose proof max_entries_bounds as (HN & _ & HNs).
  set (index := (p - aligned_pool_start) / 65536).
  assert (Hpa : p = block_addr index)
    by (unfold block_addr, index; rewrite block_size_val; lia).
  assert (0 <= index) by (unfold index; lia).
  assert (index + b <= STATIC_POOL_MAX_ENTRIES) by (unfold index in *; lia).
  pose proof (release_run madvise map size index Hlen Hsize ltac:(fold b; lia)
                ltac:(assumption) ltac:(assumption)) as Hrel.
  rewrite <- Hpa in Hrel. fold b in Hrel.
  eexists. split; [exact Hrel|]. split; [apply fill_length|].
  intros i Hi. rewrite flag_fill by lia.
  destruct (in_run index b i); [right|left]; reflexivity.
Qed.

(** X9. An address that passes the bounds test but is not a multiple of the
    block size stops the process on the alignment assertion: the call
    does not return. *)
Theorem release_unaligned_aborts madvise (map : list Z) p size :
  0 < size < 2 ^ 32 ->
  aligned_pool_start <= p ->
  p + (size + 65535) / 65536 * 65536 <= aligned_pool_start + STATIC_POOL_SIZE ->
  p mod 65536 <> 0 ->
  lj_release_to_static_pool madvise map p size = AssertFail.
Proof.
  intros Hsize Hlo Hend Hal.
  rewrite <- size_to_blocks_eq in Hend by lia.
  assert (Hb : 1 <= size_to_blocks size) by (rewrite size_to_blocks_eq; lia).
  unfold lj_release_to_static_pool.
  destruct (Z.eqb_spec (size_to_blocks size) 0) as [E|_]; [lia|].
  rewrite pool_start_check_true. simpl.
  pose proof pool_size_int as Hint. pose proof pool_in_address_space as Hsp.
  pose proof aligned_pool_start_bounds as (Ha & _). pose proof pool_not_null.
  unfold sizeof_static_alloc_pool in Hsp, Hint. rewrite block_size_val in Hsp, Hint.
  assert (0 <= STATIC_POOL_SIZE) by (unfold_consts; lia).
  rewrite outside_pool_defined by lia. simpl.
  destruct (Z.ltb_spec (aligned_pool_start + STATIC_POOL_SIZE)
              (p + size_to_blocks size * 65536)); [lia|].
  change STATIC_POOL_BLOCK_SIZE_MASK with (Z.ones 16).
  rewrite Z.land_ones by lia. change (2 ^ 16) with 65536.
  destruct (Z.eqb_spec (p mod 65536) 0); [contradiction|reflexivity].
Qed.

(** ** The whole pool, and the figures of the log *)

Lemma fill_replicate n v w :
  fill (replicate n v) 0 n w = replicate n w.
Proof.
  apply list_eq. intros j.
  destruct (decide (j < n)%nat) as [Hlt|Hge].
  - rewrite fill_lookup_in by (rewrite ?length_replicate; lia).
    symmetry. apply lookup_replicate_2. exact Hlt.
  - rewrite !lookup_ge_None_2 by (rewrite ?fill_length, ?length_replicate; lia).
    reflexivity.
Qed.

(** X10. A request for the whole pool, made while every block is free and
    with [mprotect] accepting, is granted at [aligned_pool_start] and
    sets every flag; from then on every request of at least one byte
    comes back with [NULL]. *)
Theorem alloc_whole_pool mprotect prot :
  (forall addr len pr, mprotect addr len pr = 0) ->
  let n := Z.to_nat STATIC_POOL_MAX_ENTRIES in
  lj_alloc_from_static_pool mprotect (replicate n 0)
    (STATIC_POOL_MIN_BLOCK_SIZE * STATIC_POOL_MAX_ENTRIES) prot
  = Ret (aligned_pool_start, replicate n 1)
  /\ forall mprotect' size' prot', 0 < size' < 2 ^ 32 ->
       lj_alloc_from_static_pool mprotect' (replicate n 1) size' prot'
       = Ret (0, replicate n 1).
Proof.
  intros Hmp n. pose proof max_entries_bounds as (HN & HNs & _).
  pose proof pool_size_int as Hint. unfold sizeof_static_alloc_pool in Hint.
  rewrite block_size_val in *.
  assert (Hsize : 0 <= 65536 * STATIC_POOL_MAX_ENTRIES < 2 ^ 32) by lia.
  assert (Hb : size_to_blocks (65536 * STATIC_POOL_MAX_ENTRIES) = STATIC_POOL_MAX_ENTRIES)
    by (rewrite size_to_blocks_eq by exact Hsize; lia).
  split.
  - destruct (alloc_below_free_run mprotect (replicate n 0)
                (65536 * STATIC_POOL_MAX_ENTRIES) prot 0) as (s & Hs & _ & ->);
      rewrite ?Hb; try assumption; try lia.
    + rewrite length_replicate. unfold n. lia.
    + split; [lia|]. split; [lia|]. intros i Hi. unfold flag.
      apply lookup_replicate_2. unfold n. lia.
    + assert (s = 0) by lia. subst s. unfold n.
      rewrite fill_replicate. do 2 f_equal.
      unfold block_addr. lia.
  - intros mprotect' size' prot' Hsize'.
    assert (Hlen : Z.of_nat (length (replicate n 1)) = STATIC_POOL_MAX_ENTRIES)
      by (rewrite length_replicate; unfold n; lia).
    destruct (alloc_cases mprotect' (replicate n 1) size' prot' Hlen ltac:(lia))
      as [(_ & ->)|[(_ & _ & ->)|(Hb' & s & ((Hs & Hfit & Hfree) & _) & _)]];
      try reflexivity.
    specialize (Hfree s ltac:(lia)). unfold flag in Hfree.
    rewrite lookup_replicate_2 in Hfree by (unfold n; lia). discriminate.
Qed.

Lemma set_flags_cons v map :
  set_flags (v :: map) = (if negb (v =? 0) then 1 else 0) + set_flags map.
Proof.
  unfold set_flags. simpl. destruct (negb (v =? 0)); simpl length; lia.
Qed.

Lemma set_flags_bounds map : 0 <= set_flags map <= Z.of_nat (length map).
Proof.
  unfold set_flags. pose proof (List.filter_length_le (fun v => negb (v =? 0)) map). lia.
Qed.

Lemma count_used_value map n : forall i used,
  (i + n <= length map)%nat ->
  0 <= used -> used + 65536 * Z.of_nat n < 2 ^ ptr_bits ->
  count_used map (Z.of_nat i) n used
  = Ret (used + 65536 * set_flags (take n (drop i map))).
Proof.
  induction n as [|n IH]; intros i used Hlen Hused Hfit; simpl.
  - rewrite take_0. unfold set_flags. simpl. f_equal. lia.
  - destruct (lookup_lt_is_Some_2 map i) as (v & Hv); [lia|].
    unfold load. destruct (Z.ltb_spec (Z.of_nat i) 0); [lia|].
    rewrite Nat2Z.id, Hv. simpl.
    rewrite (drop_S _ _ _ Hv). rewrite firstn_cons, set_flags_cons.
    pose proof (set_flags_bounds (take n (drop (S i) map))) as Hsf.
    replace (Z.of_nat i + 1) with (Z.of_nat (S i)) by lia.
    rewrite block_size_val.
    destruct (negb (v =? 0)).
    + rewrite wrap_uptr_small by lia. rewrite IH by lia. f_equal. lia.
    + rewrite IH by lia. f_equal.
Qed.

(** X11. The figure both entry points log as [used] is 64 KiB for every set
    flag; it never exceeds [STATIC_POOL_SIZE], so the [avail] figure
    [STATIC_POOL_SIZE - used] is never negative. *)
Theorem used_figure (map : list Z) :
  Z.of_nat (length map) = STATIC_POOL_MAX_ENTRIES ->
  count_used map 0 (trips_between 0 STATIC_POOL_MAX_ENTRIES) 0
  = Ret (STATIC_POOL_MIN_BLOCK_SIZE * set_flags map)
  /\ STATIC_POOL_MIN_BLOCK_SIZE * set_flags map <= STATIC_POOL_SIZE.
Proof.
  intros Hlen. pose proof max_entries_bounds as (HN & HNs & _).
  pose proof pool_size_int as Hint. pose proof ptr_range.
  unfold sizeof_static_alloc_pool in Hint. rewrite block_size_val in *.
  pose proof (set_flags_bounds map) as Hsf.
  split; [|lia].
  unfold trips_between.
  change 0 with (Z.of_nat 0) at 1.
  rewrite (count_used_value map (Z.to_nat (STATIC_POOL_MAX_ENTRIES - 0)) 0 0) by lia.
  rewrite drop_0, take_ge by lia. reflexivity.
Qed.

(** ** Callers that stay within the capacity *)

Lemma total_blocks_nonneg calls : sizes_ok calls = true -> 0 <= total_blocks calls.
Proof.
  induction calls as [|[size prot mprotect|k madvise] calls IH]; simpl; intros H.
  - lia.
  - apply andb_prop in H as (Hs & H). apply andb_prop in Hs as (Hlo & _).
    apply Z.leb_le in Hlo. specialize (IH H). lia.
  - exact (IH H).
Qed.

Lemma budget_inv_snoc map gr h p size :
  budget_inv map gr h -> 0 <= size < 2 ^ 32 -> (1 <= size -> p <> 0) ->
  (p <> 0 -> exists s, p = block_addr s /\ 0 <= s /\ 1 <= size_to_blocks size
     /\ s + size_to_blocks size <= STATIC_POOL_MAX_ENTRIES) ->
  budget_inv map (gr ++ [(p, size)]) h.
Proof.
  intros [B1 B2 B3 B4] Hsize Hp Hs. split; try assumption.
  intros k p' size' Hk. apply lookup_snoc_Some in Hk as [(_ & Hk)|(_ & Hk)].
  - exact (B4 k p' size' Hk).
  - injection Hk as <- <-. auto.
Qed.

Lemma run_within_budget calls : forall st h,
  sizes_ok calls = true ->
  Forall mprotect_accepts calls ->
  budget_inv (occupancy st) (grants st) h ->
  h + total_blocks calls <= STATIC_POOL_MAX_ENTRIES ->
  exists st', run calls st = Ret st'
    /\ forall k p size, grants st' !! k = Some (p, size) -> 1 <= size -> p <> 0.
Proof.
  induction calls as [|[size prot mprotect|k madvise] calls IH];
    intros [map gr] h Hsizes Hmp Hinv Hbudget; simpl in *.
  - eexists. split; [reflexivity|]. simpl. intros k p size Hk.
    apply (budget_grants _ _ _ Hinv k p size Hk).
  - apply andb_prop in Hsizes as (Hsize & Hsizes).
    apply andb_prop in Hsize as (Hlo & Hhi).
    apply Z.leb_le in Hlo. apply Z.ltb_lt in Hhi.
    apply Forall_cons in Hmp as (Hmp1 & Hmp). simpl in Hmp1.
    pose proof (total_blocks_nonneg calls Hsizes) as Hrest.
    pose proof (budget_length _ _ _ Hinv) as Hlen.
    pose proof (budget_mark _ _ _ Hinv) as Hh.
    destruct (Z.eq_dec size 0) as [->|Hne].
    + change (lj_alloc_from_static_pool mprotect map 0 prot) with (@Ret (Z * list Z) (0, map)).
      simpl. apply (IH (PoolState map (gr ++ [(0, 0)])) h Hsizes Hmp); simpl.
      * apply budget_inv_snoc; [exact Hinv|lia|lia|congruence].
      * lia.
    + assert (Hb : size_to_blocks size = (size + 65535) / 65536)
        by (apply size_to_blocks_eq; lia).
      destruct (alloc_below_free_run mprotect map size prot h Hlen)
        as (s & Hs & (_ & Hfit & _) & ->); try assumption; try lia.
      { split; [exact Hh|]. split; [lia|]. intros i Hi.
        apply (budget_above _ _ _ Hinv). lia. }
      simpl.
      apply (IH (PoolState _ (gr ++ [(block_addr s, size)]))
                (Z.max h (s + size_to_blocks size)) Hsizes Hmp); simpl; [|lia].
      destruct Hinv as [B1 B2 B3 B4]. split.
      * rewrite fill_length. exact B1.
      * lia.
      * intros i Hi. rewrite flag_fill by lia.
        replace (in_run s (size_to_blocks size) i) with false; [apply B3; lia|].
        symmetry. apply not_true_is_false. rewrite in_run_true. lia.
      * intros k p size' Hk. apply lookup_snoc_Some in Hk as [(_ & Hk)|(_ & Hk)];
          [exact (B4 k p size' Hk)|].
        injection Hk as <- <-. split; [lia|]. split.
        -- intros _. apply block_addr_not_null. lia.
        -- intros _. exists s. repeat split; lia.
  - apply Forall_cons in Hmp as (_ & Hmp).
    destruct (gr !! k) as [[p size]|] eqn:Hk.
    + destruct (budget_grants _ _ _ Hinv k p size Hk) as (Hsize & _ & Hsh).
      pose proof (budget_length _ _ _ Hinv) as Hlen.
      destruct (Z.eq_dec p 0) as [->|Hp].
      * rewrite release_below
          by (pose proof aligned_pool_start_bounds; pose proof pool_not_null; lia).
        simpl. apply (IH (PoolState map gr) h Hsizes Hmp Hinv Hbudget).
      * destruct (Hsh Hp) as (s & -> & Hs & Hb & Hfit).
        rewrite release_run by assumption. simpl.
        apply (IH (PoolState _ gr) h Hsizes Hmp); simpl; [|exact Hbudget].
        destruct Hinv as [B1 B2 B3 B4]. split; try assumption.
        -- rewrite fill_length. exact B1.
        -- intros i Hi. rewrite flag_fill by lia.
           destruct (in_run s (size_to_blocks size) i); [reflexivity|apply B3; exact Hi].
    + apply (IH (PoolState map gr) h Hsizes Hmp Hinv Hbudget).
Qed.

(** X12. No exhaustion within the capacity.  Start from the zero-initialised
    array and let a caller make any sequence of requests and of
    releases of what it was granted (in any order, even twice), with
    [mprotect] accepting every request.  If the block counts of all the
    requests sum to at most [STATIC_POOL_MAX_ENTRIES], no call aborts
    and every request of at least one byte is granted: first fit never
    leaves a request without a run as long as the total ever asked for
    fits the pool. *)
Theorem requests_within_capacity_granted calls :
  sizes_ok calls = true ->
  Forall mprotect_accepts calls ->
  total_blocks calls <= STATIC_POOL_MAX_ENTRIES ->
  exists st, run calls initial_state = Ret st
    /\ forall k p size, grants st !! k = Some (p, size) -> 1 <= size -> p <> 0.
Proof.
  intros Hsizes Hmp Hbudget.
  apply (run_within_budget calls initial_state 0 Hsizes Hmp); [|lia].
  pose proof max_entries_bounds as (HN & _). simpl. split.
  - rewrite length_replicate. lia.
  - lia.
  - intros i Hi. unfold flag. apply lookup_replicate_2. lia.
  - intros k p size Hk. rewrite lookup_nil in Hk. discriminate.
Qed.

(** ** Filling the pool block by block *)

Lemma fill_snoc map s n v :
  fill map s (S n) v = fill (fill map s n v) (s + n) 1 v.
Proof.
  revert map s. induction n as [|n IH]; intros map s.
  - simpl. rewrite Nat.add_0_r. reflexivity.
  - change (fill map s (S (S n)) v) with (fill (<[s:=v]> map) (S s) (S n) v).
    rewrite IH. simpl. rewrite Nat.add_succ_r. reflexivity.
Qed.

Lemma run_app calls1 calls2 st :
  run (calls1 ++ calls2) st = do st' <- run calls1 st; run calls2 st'.
Proof.
  revert st. induction calls1 as [|c calls1 IH]; intros st; simpl; [reflexivity|].
  destruct (step st c); simpl; auto.
Qed.

Lemma run_fills calls :
  Forall one_block_request calls ->
  Z.of_nat (length calls) <= STATIC_POOL_MAX_ENTRIES ->
  run calls initial_state
  = Ret (PoolState (fill (occupancy initial_state) 0 (length calls) 1)
           (imap (fun i c => (block_addr (Z.of_nat i), request_size c)) calls)).
Proof.
  pose proof max_entries_bounds as (HN & _).
  induction calls as [|c calls IH] using rev_ind; intros Hreq Hn; [reflexivity|].
  apply Forall_app in Hreq as (Hreq & Hc). apply Forall_cons in Hc as (Hc & _).
  rewrite length_app in Hn. simpl in Hn.
  destruct c as [size prot mprotect|k madvise]; [|destruct Hc].
  destruct Hc as (Hsize & Hmp).
  assert (Hb : size_to_blocks size = 1) by (rewrite size_to_blocks_eq; lia).
  rewrite length_app, imap_app. simpl length. rewrite Nat.add_1_r.
  rewrite (fill_snoc _ 0 (length calls) 1).
  rewrite run_app, IH by (try assumption; lia). simpl.
  set (n := length calls) in *.
  set (map := fill _ 0 n 1).
  assert (Hlen : Z.of_nat (length map) = STATIC_POOL_MAX_ENTRIES)
    by (unfold map; rewrite fill_length, length_replicate; lia).
  assert (Hflag : forall i, 0 <= i < STATIC_POOL_MAX_ENTRIES ->
            flag map i = if i <? Z.of_nat n then Some 1 else Some 0).
  { intros i Hi. unfold map.
    replace n with (Z.to_nat (Z.of_nat n)) at 1 by lia.
    change 0%nat with (Z.to_nat 0).
    rewrite flag_fill by (rewrite ?length_replicate; lia).
    unfold in_run, flag. rewrite lookup_replicate_2 by lia.
    destruct (Z.leb_spec 0 i); [|lia]. simpl.
    destruct (Z.ltb_spec i (0 + Z.of_nat n)); destruct (Z.ltb_spec i (Z.of_nat n));
      try lia; reflexivity. }
  destruct (alloc_below_free_run mprotect map size prot (Z.of_nat n) Hlen)
    as (s & Hs & (_ & _ & Hfree) & ->); rewrite ?Hb; try assumption; try lia.
  { split; [lia|]. split; [lia|]. intros i Hi. rewrite Hflag by lia.
    destruct (Z.ltb_spec i (Z.of_nat n)); [lia|reflexivity]. }
  assert (s = Z.of_nat n).
  { specialize (Hfree s ltac:(lia)). rewrite Hflag in Hfree by lia.
    destruct (Z.ltb_spec s (Z.of_nat n)); [discriminate|lia]. }
  subst s. simpl. rewrite ?Hb, ?Nat2Z.id, ?Nat.add_0_r. reflexivity.
Qed.

(** X13. Starting from the zero-initialised array, as many requests of one
    block or less as the array has entries (of whatever sizes and
    protections, each within one block), with [mprotect] accepting,
    are granted the blocks 0, 1, 2, ... in this order, at ascending
    addresses 64 KiB apart, and leave every flag set. *)
Theorem pool_fills_in_address_order calls :
  Forall one_block_request calls ->
  Z.of_nat (length calls) = STATIC_POOL_MAX_ENTRIES ->
  run calls initial_state
  = Ret (PoolState (replicate (length calls) 1)
           (imap (fun i c => (aligned_pool_start + Z.of_nat i * 65536, request_size c))
                 calls)).
Proof.
  intros Hreq Hn. pose proof max_entries_bounds as (HN & _).
  rewrite (run_fills calls Hreq) by lia. simpl.
  replace (Z.to_nat STATIC_POOL_MAX_ENTRIES) with (length calls) by lia.
  rewrite fill_replicate. reflexivity.
Qed.

(** X14. A granted range ends at or before the last whole block of the
    pool: when the capacity is not a multiple of 64 KiB, the remainder
    at the end of [STATIC_POOL_SIZE] is never handed out. *)
Theorem alloc_within_whole_blocks mprotect (map map' : list Z) size prot p :
  Z.of_nat (length map) = STATIC_POOL_MAX_ENTRIES ->
  0 <= size < 2 ^ 32 ->
  lj_alloc_from_static_pool mprotect map size prot = Ret (p, map') ->
  p <> 0 ->
  p + (size + 65535) / 65536 * 65536
  <= aligned_pool_start + STATIC_POOL_MAX_ENTRIES * 65536.
Proof.
  intros Hlen Hsize Hrun Hp.
  destruct (alloc_returns_block _ _ _ _ _ _ Hlen Hsize Hrun Hp)
    as (s & -> & ((Hs & Hfit & _) & _) & Hb & _).
  rewrite <- size_to_blocks_eq by assumption.
  unfold block_addr. rewrite block_size_val. lia.
Qed.

(** ** The flags and the outstanding grants *)

Lemma run_keeps_inv calls : forall st released released',
  sizes_ok calls = true ->
  pool_inv (occupancy st) (grants st) released ->
  released_after calls (length (grants st)) released = Some released' ->
  exists st', run calls st = Ret st'
    /\ pool_inv (occupancy st') (grants st') released'.
Proof.
  induction calls as [|[size prot mprotect|k madvise] calls IH];
    intros [map gr] released released' Hsizes Hinv Hrel; simpl in *.
  - injection Hrel as <-. eexists. split; [reflexivity|exact Hinv].
  - apply andb_prop in Hsizes as (Hsize & Hsizes).
    apply andb_prop in Hsize as (Hlo & Hhi).
    apply Z.leb_le in Hlo. apply Z.ltb_lt in Hhi.
    assert (Hnull : exists st', run calls (PoolState map (gr ++ [(0, size)])) = Ret st'
              /\ pool_inv (occupancy st') (grants st') released').
    { apply (IH (PoolState map (gr ++ [(0, size)])) released released' Hsizes); simpl.
      - apply inv_alloc_null; [exact Hinv|lia].
      - rewrite length_app. simpl. rewrite Nat.add_1_r. exact Hrel. }
    destruct (alloc_cases mprotect map size prot (inv_length _ _ _ Hinv) (conj Hlo Hhi))
      as [(_ & ->)|[(_ & _ & ->)|(Hb & s & (Hfree & _) & ->)]]; simpl; try exact Hnull.
    destruct (grant_cases mprotect map (size_to_blocks size) prot s) as [(_ & ->)|(_ & ->)];
      simpl; try exact Hnull.
    apply (IH (PoolState _ (gr ++ [(block_addr s, size)])) released released' Hsizes); simpl.
    + apply inv_alloc_grant; [exact Hinv|lia|exact Hb|exact Hfree].
    + rewrite length_app. simpl. rewrite Nat.add_1_r. exact Hrel.
  - destruct (bool_decide (k < length gr)%nat && negb (bool_decide (k ∈ released))) eqn:Hk;
      [|discriminate].
    apply andb_prop in Hk as (Hk & Hnot).
    rewrite bool_decide_eq_true in Hk.
    rewrite negb_true_iff, bool_decide_eq_false in Hnot.
    destruct (lookup_lt_is_Some_2 gr k Hk) as ([p size] & Hgr). rewrite Hgr.
    destruct (inv_shape _ _ _ Hinv k p size Hgr Hnot) as (Hsize & Hsh).
    destruct (Z.eq_dec p 0) as [->|Hp].
    + rewrite release_below
        by (pose proof aligned_pool_start_bounds; pose proof pool_not_null; lia).
      simpl. apply (IH (PoolState map gr) (k :: released) released' Hsizes); simpl.
      * eapply inv_release_null; [exact Hinv|exact Hgr].
      * exact Hrel.
    + destruct (Hsh Hp) as (s & -> & Hs & Hb & Hfit & _).
      rewrite release_run by (try apply (inv_length _ _ _ Hinv); assumption).
      simpl. apply (IH (PoolState _ gr) (k :: released) released' Hsizes); simpl.
      * apply inv_release_grant; assumption.
      * exact Hrel.
Qed.

(** X15. The occupancy array tracks the outstanding grants.  Start from the
    zero-initialised array and let a caller make requests and hand
    back, at most once each, what it was granted.  At any point every
    flag is 0 or 1; the flag of a block is 1 exactly when the block
    lies in the range of a grant not handed back yet; and two such
    grants never overlap. *)
Theorem occupancy_tracks_grants calls released :
  sizes_ok calls = true ->
  released_after calls 0 [] = Some released ->
  exists st, run calls initial_state = Ret st
    /\ (forall i, 0 <= i < STATIC_POOL_MAX_ENTRIES ->
          flag (occupancy st) i = Some 0 \/ flag (occupancy st) i = Some 1)
    /\ (forall i, 0 <= i < STATIC_POOL_MAX_ENTRIES ->
          flag (occupancy st) i = Some 1
          <-> exists k p size,
                grants st !! k = Some (p, size) /\ (k ∉ released) /\ p <> 0
                /\ p <= aligned_pool_start + i * 65536
                   < p + (size + 65535) / 65536 * 65536)
    /\ (forall k k' p p' size size', k <> k' ->
          grants st !! k = Some (p, size) -> grants st !! k' = Some (p', size') ->
          (k ∉ released) -> (k' ∉ released) -> p <> 0 -> p' <> 0 ->
          p + (size + 65535) / 65536 * 65536 <= p'
          \/ p' + (size' + 65535) / 65536 * 65536 <= p).
Proof.
  intros Hsizes Hrel.
  destruct (run_keeps_inv calls initial_state [] released Hsizes inv_initial Hrel)
    as (st & Hrun & [I1 I0 I2 I3 I4]).
  exists st. split; [exact Hrun|].
  assert (Hone : forall i v, 0 <= i -> flag (occupancy st) i = Some v -> v <> 0 -> v = 1).
  { intros i v Hi Hv Hne.
    destruct (I3 i v Hi Hv Hne) as (k & s & size & Hk & Hnot & Hs & Hin).
    destruct (I2 _ _ _ Hk Hnot) as (_ & Hsh).
    destruct (Hsh (block_addr_not_null s Hs)) as (s' & E & _ & _ & _ & Hones).
    apply block_addr_inj in E. subst s'.
    specialize (Hones i Hin). congruence. }
  split; [|split].
  - intros i Hi.
    destruct (lookup_lt_is_Some_2 (occupancy st) (Z.to_nat i)) as (v & Hv); [lia|].
    fold (flag (occupancy st) i) in Hv. rewrite Hv.
    destruct (Z.eq_dec v 0) as [->|Hne]; [left; reflexivity|right].
    f_equal. apply (Hone i v); [lia|exact Hv|exact Hne].
  - intros i Hi. split.
    + intros Hv.
      destruct (I3 i 1 ltac:(lia) Hv ltac:(lia)) as (k & s & size & Hk & Hnot & Hs & Hin).
      destruct (I2 _ _ _ Hk Hnot) as (Hsize & _).
      exists k, (block_addr s), size.
      split; [exact Hk|]. split; [exact Hnot|]. split; [apply block_addr_not_null; exact Hs|].
      rewrite <- size_to_blocks_eq by exact Hsize.
      unfold block_addr. rewrite block_size_val. lia.
    + intros (k & p & size & Hk & Hnot & Hp & Hin).
      destruct (I2 _ _ _ Hk Hnot) as (Hsize & Hsh).
      destruct (Hsh Hp) as (s & -> & _ & _ & _ & Hones).
      apply Hones. rewrite <- size_to_blocks_eq in Hin by exact Hsize.
      unfold block_addr in Hin. rewrite block_size_val in Hin. lia.
  - intros k k' p p' size size' Hne Hk Hk' Hnot Hnot' Hp Hp'.
    destruct (I2 _ _ _ Hk Hnot) as (Hsize & Hsh).
    destruct (I2 _ _ _ Hk' Hnot') as (Hsize' & Hsh').
    destruct (Hsh Hp) as (s & -> & Hs & _). destruct (Hsh' Hp') as (s' & -> & Hs' & _).
    rewrite <- !size_to_blocks_eq by assumption.
    unfold block_addr. rewrite block_size_val.
    destruct (I4 k k' s s' size size' Hne Hk Hk' Hnot Hnot' Hs Hs'); [left|right]; lia.
Qed.

End Pool.

(** ** The properties on a small pool *)

(** Closing a side condition on the small pool by evaluation. *)
Ltac by_computation :=
  solve [ reflexivity
        | intros; reflexivity
        | intros; discriminate
        | vm_compute; intuition congruence ].

Lemma round_trip_witness :
  exists gr,
    run example_kb example_bits example_pool
      [Acquire 65536 7 mprotect_ok; Acquire 100000 7 mprotect_ok;
       Release 0 madvise_ok; Acquire 32768 7 mprotect_ok;
       Release 2 madvise_ok; Release 1 madvise_ok]
      (initial_state example_kb)
    = Ret (PoolState [0; 0; 0; 0; 0; 0; 0; 0] gr).
Proof.
  apply (round_trip example_kb example_bits example_pool); by_computation.
Defined.

Lemma alloc_first_fit_witness :
  exists p map',
    lj_alloc_from_static_pool example_kb example_bits example_pool
      mprotect_ok [1; 0; 1; 0; 0; 1; 0; 0] 65537 7 = Ret (p, map')
    /\ (p = 0 <-> ~ exists s, free_run example_kb [1; 0; 1; 0; 0; 1; 0; 0] s 2)
    /\ (p <> 0 -> exists start,
          first_fit example_kb [1; 0; 1; 0; 0; 1; 0; 0] 2 start
          /\ p = aligned_pool_start example_bits example_pool + start * 65536).
Proof.
  apply (alloc_first_fit example_kb example_bits example_pool); by_computation.
Defined.

Lemma alloc_mprotect_failure_witness :
  lj_alloc_from_static_pool example_kb example_bits example_pool
    mprotect_denied [1; 0; 1; 0; 0; 1; 0; 0] 65537 7
  = Ret (0, [1; 0; 1; 0; 0; 1; 0; 0]).
Proof.
  apply (alloc_mprotect_failure example_kb example_bits example_pool);
    try by_computation.
  exists 3. split; [lia|]. split; [vm_compute; discriminate|].
  intros i Hi. assert (E : i = 3 \/ i = 4) by lia.
  destruct E as [-> | ->]; reflexivity.
Defined.

Lemma alloc_address_aligned_in_pool_witness :
  0x10040000 mod 65536 = 0
  /\ aligned_pool_start example_bits example_pool <= 0x10040000
     < aligned_pool_start example_bits example_pool + STATIC_POOL_SIZE example_kb
  /\ 0x10040000 + (65537 + 65535) / 65536 * 65536
     <= aligned_pool_start example_bits example_pool + STATIC_POOL_SIZE example_kb.
Proof.
  apply (alloc_address_aligned_in_pool example_kb example_bits example_pool
           ltac:(by_computation) ltac:(by_computation) ltac:(by_computation)
           ltac:(by_computation) ltac:(by_computation)
           mprotect_ok [1; 0; 1; 0; 0; 1; 0; 0] [1; 0; 1; 1; 1; 1; 0; 0] 65537 7);
    by_computation.
Defined.

Lemma release_rejects_outside_pool_witness :
  lj_release_to_static_pool example_kb example_bits example_pool
    madvise_ok [1; 1; 1; 1; 1; 1; 1; 1] 0x10080000 131072
  = Ret (1, [1; 1; 1; 1; 1; 1; 1; 1]).
Proof.
  apply (release_rejects_outside_pool example_kb example_bits example_pool);
    by_computation.
Defined.

Lemma release_twice_witness :
  exists map1,
    lj_release_to_static_pool example_kb example_bits example_pool
      madvise_ok [1; 0; 1; 1; 1; 1; 0; 0] 0x10040000 65537 = Ret (0, map1)
    /\ lj_release_to_static_pool example_kb example_bits example_pool
         madvise_ok map1 0x10040000 65537 = Ret (0, map1)
    /\ forall i, 0 <= i ->
         flag map1 i
         = if in_run ((0x10040000 - aligned_pool_start example_bits example_pool) / 65536)
                     ((65537 + 65535) / 65536) i
           then Some 0 else flag [1; 0; 1; 1; 1; 1; 0; 0] i.
Proof.
  apply (release_twice example_kb example_bits example_pool
           ltac:(by_computation) ltac:(by_computation) ltac:(by_computation)
           ltac:(by_computation) ltac:(by_computation)
           mprotect_ok madvise_ok madvise_ok
           [1; 0; 1; 0; 0; 1; 0; 0] [1; 0; 1; 1; 1; 1; 0; 0]
           [1; 0; 1; 1; 1; 1; 0; 0] 65537 7);
    by_computation.
Defined.

Lemma size_rounding_witness :
  lj_alloc_from_static_pool example_kb example_bits example_pool
    mprotect_ok [1; 0; 1; 0; 0; 1; 0; 0] (STATIC_POOL_MIN_BLOCK_SIZE / 2) 7
  = Ret (aligned_pool_start example_bits example_pool + 1 * 65536,
         [1; 1; 1; 0; 0; 1; 0; 0])
  /\ lj_release_to_static_pool example_kb example_bits example_pool
       madvise_ok [1; 1; 1; 0; 0; 1; 0; 0]
       (aligned_pool_start example_bits example_pool + 1 * 65536)
       (STATIC_POOL_MIN_BLOCK_SIZE / 2)
     = Ret (0, [1; 0; 1; 0; 0; 1; 0; 0]).
Proof.
  destruct (size_rounding example_kb example_bits example_pool
              ltac:(by_computation) ltac:(by_computation) ltac:(by_computation)
              ltac:(by_computation) ltac:(by_computation)
              mprotect_ok madvise_ok [1; 0; 1; 0; 0; 1; 0; 0] 7
              ltac:(by_computation)) as (_ & _ & Hhalf & _).
  apply (Hhalf 1); [|reflexivity].
  split.
  - split; [lia|]. split; [vm_compute; discriminate|].
    intros i Hi. assert (E : i = 1) by lia. subst i. reflexivity.
  - intros s' Hs' (_ & _ & Hfree). assert (E : s' = 0) by lia. subst s'.
    specialize (Hfree 0 ltac:(lia)). discriminate Hfree.
Defined.

Lemma aligned_base_inside_region_witness :
  sizeof_static_alloc_pool example_kb = STATIC_POOL_SIZE example_kb + 65536
  /\ example_pool <= aligned_pool_start example_bits example_pool
  /\ aligned_pool_start example_bits example_pool + STATIC_POOL_SIZE example_kb
     <= example_pool + sizeof_static_alloc_pool example_kb
  /\ aligned_pool_start example_bits example_pool mod 65536 = 0
  /\ aligned_pool_start example_bits example_pool < example_pool + 65536.
Proof.
  apply (aligned_base_inside_region example_kb example_bits example_pool);
    by_computation.
Defined.

Lemma release_no_provenance_witness :
  exists map',
    lj_release_to_static_pool example_kb example_bits example_pool
      madvise_ok [1; 1; 1; 1; 1; 1; 1; 1] 0x10020000 196608 = Ret (0, map')
    /\ length map' = length [1; 1; 1; 1; 1; 1; 1; 1]
    /\ forall i, 0 <= i ->
         flag map' i
         = if in_run ((0x10020000 - aligned_pool_start example_bits example_pool) / 65536)
                     ((196608 + 65535) / 65536) i
           then Some 0 else flag [1; 1; 1; 1; 1; 1; 1; 1] i.
Proof.
  apply (release_no_provenance example_kb example_bits example_pool);
    by_computation.
Defined.

(** C5.  The bounds test of the release does not hold for every size:
    with [size = 0xFFFFFFFF] the block count is 65536 and the [int]
    product [size_blocks * STATIC_POOL_MIN_BLOCK_SIZE] of line 165
    overflows, so the call at the aligned base of the small pool
    ([0x10010000]), whose run ends far beyond the pool, has no defined
    result instead of the nonzero return the test is there to give. *)
Lemma release_huge_size_undefined :
  aligned_pool_start example_bits example_pool = 0x10010000
  /\ aligned_pool_start example_bits example_pool + STATIC_POOL_SIZE example_kb
     < 0x10010000 + (0xFFFFFFFF + 65535) / 65536 * 65536
  /\ lj_release_to_static_pool example_kb example_bits example_pool
       madvise_ok [1; 0; 1; 0; 0; 1; 0; 0] 0x10010000 0xFFFFFFFF
     = Undefined.
Proof. repeat split. Qed.

(** C10.  The index assertions of the release do not guard every
    call: at [p = 0x90010000] with [size = 0x80000000] on the small
    32-bit pool, the [int] product of line 165 overflows before the
    assertions of lines 173 and 174 are reached, so nothing keeps the
    marking loop inside the array. *)
Lemma release_far_run_undefined :
  size_to_blocks 0x80000000 = 32768
  /\ int_mul 32768 STATIC_POOL_MIN_BLOCK_SIZE = Undefined
  /\ aligned_pool_start example_bits example_pool <= 0x90010000 < 2 ^ example_bits
  /\ lj_release_to_static_pool example_kb example_bits example_pool
       madvise_ok [1; 0; 1; 0; 0; 1; 0; 0] 0x90010000 0x80000000
     = Undefined.
Proof.
  split; [reflexivity|]. split; [reflexivity|].
  split; [vm_compute; split; [discriminate|reflexivity]|].
  reflexivity.
Qed.

(** The same for an address at the top of the 32-bit address space,
    where the pointer sum of line 165 leaves the address space. *)
Example release_pointer_sum_undefined :
  lj_release_to_static_pool example_kb example_bits example_pool
    madvise_ok [1; 0; 1; 0; 0; 1; 0; 0] 0xFFFF0000 65536
  = Undefined.
Proof. reflexivity. Qed.

(** ** Further properties on the small pool *)

Lemma alloc_returns_witness :
  exists p map',
    lj_alloc_from_static_pool example_kb example_bits example_pool
      mprotect_denied [1; 0; 1; 0; 0; 1; 0; 0] 65537 7 = Ret (p, map')
    /\ length map' = length [1; 0; 1; 0; 0; 1; 0; 0]
    /\ (p = 0 -> map' = [1; 0; 1; 0; 0; 1; 0; 0]).
Proof.
  apply (alloc_returns example_kb example_bits example_pool); by_computation.
Defined.

Lemma alloc_marks_exactly_run_witness :
  (forall i, (0x10040000 - aligned_pool_start example_bits example_pool) / 65536 <= i
             < (0x10040000 - aligned_pool_start example_bits example_pool) / 65536
               + (65537 + 65535) / 65536 ->
     flag [1; 0; 1; 0; 0; 1; 0; 0] i = Some 0)
  /\ forall i, 0 <= i ->
       flag [1; 0; 1; 1; 1; 1; 0; 0] i
       = if in_run ((0x10040000 - aligned_pool_start example_bits example_pool) / 65536)
                   ((65537 + 65535) / 65536) i
         then Some 1 else flag [1; 0; 1; 0; 0; 1; 0; 0] i.
Proof.
  apply (alloc_marks_exactly_run example_kb example_bits example_pool
           ltac:(by_computation) ltac:(by_computation) ltac:(by_computation)
           ltac:(by_computation) ltac:(by_computation)
           mprotect_ok [1; 0; 1; 0; 0; 1; 0; 0] [1; 0; 1; 1; 1; 1; 0; 0] 65537 7);
    by_computation.
Defined.

Lemma alloc_granted_after_mprotect_witness :
  mprotect_ok 0x10040000 ((65537 + 65535) / 65536 * 65536) 7 = 0.
Proof.
  apply (alloc_granted_after_mprotect example_kb example_bits example_pool
           ltac:(by_computation) ltac:(by_computation) ltac:(by_computation)
           ltac:(by_computation) ltac:(by_computation)
           mprotect_ok [1; 0; 1; 0; 0; 1; 0; 0] [1; 0; 1; 1; 1; 1; 0; 0] 65537 7);
    by_computation.
Defined.

Lemma alloc_then_release_witness :
  lj_release_to_static_pool example_kb example_bits example_pool
    madvise_ok [1; 0; 1; 1; 1; 1; 0; 0] 0x10040000 131072
  = Ret (0, [1; 0; 1; 0; 0; 1; 0; 0]).
Proof.
  apply (alloc_then_release example_kb example_bits example_pool
           ltac:(by_computation) ltac:(by_computation) ltac:(by_computation)
           ltac:(by_computation) ltac:(by_computation)
           mprotect_ok madvise_ok [1; 0; 1; 0; 0; 1; 0; 0] [1; 0; 1; 1; 1; 1; 0; 0]
           65537 131072 7);
    by_computation.
Defined.

Lemma alloc_twice_disjoint_witness :
  0x10040000 + (65537 + 65535) / 65536 * 65536 <= 0x10020000
  \/ 0x10020000 + (65536 + 65535) / 65536 * 65536 <= 0x10040000.
Proof.
  apply (alloc_twice_disjoint example_kb example_bits example_pool
           ltac:(by_computation) ltac:(by_computation) ltac:(by_computation)
           ltac:(by_computation) ltac:(by_computation)
           mprotect_ok mprotect_ok
           [1; 0; 1; 0; 0; 1; 0; 0] [1; 0; 1; 1; 1; 1; 0; 0] [1; 1; 1; 1; 1; 1; 0; 0]
           65537 7 65536 7);
    by_computation.
Defined.

Lemma alloc_exhausted_witness :
  lj_alloc_from_static_pool example_kb example_bits example_pool
    mprotect_ok [1; 1; 1; 1; 1; 1; 1; 1] 65536 7
  = Ret (0, [1; 1; 1; 1; 1; 1; 1; 1]).
Proof.
  apply (alloc_exhausted example_kb example_bits example_pool); try by_computation.
  intros i Hi. change (STATIC_POOL_MAX_ENTRIES example_kb) with 8 in Hi.
  assert (E : i = 0 \/ i = 1 \/ i = 2 \/ i = 3 \/ i = 4 \/ i = 5 \/ i = 6 \/ i = 7) by lia.
  destruct E as [->|[->|[->|[->|[->|[->|[->| ->]]]]]]]; discriminate.
Defined.

Lemma release_then_alloc_witness :
  exists map1 p' map2,
    lj_release_to_static_pool example_kb example_bits example_pool
      madvise_ok [1; 1; 1; 1; 1; 1; 1; 1] 0x10020000 196608 = Ret (0, map1)
    /\ lj_alloc_from_static_pool example_kb example_bits example_pool
         mprotect_ok map1 196608 7 = Ret (p', map2)
    /\ p' <> 0 /\ p' <= 0x10020000.
Proof.
  apply (release_then_alloc example_kb example_bits example_pool); by_computation.
Defined.

Lemma release_only_clears_witness :
  lj_release_to_static_pool example_kb example_bits example_pool
    madvise_ok [1; 0; 1; 1; 1; 1; 0; 0] 0x10030000 131072 = AssertFail
  \/ lj_release_to_static_pool example_kb example_bits example_pool
       madvise_ok [1; 0; 1; 1; 1; 1; 0; 0] 0x10030000 131072
     = Ret (1, [1; 0; 1; 1; 1; 1; 0; 0])
  \/ exists map',
       lj_release_to_static_pool example_kb example_bits example_pool
         madvise_ok [1; 0; 1; 1; 1; 1; 0; 0] 0x10030000 131072 = Ret (0, map')
       /\ length map' = length [1; 0; 1; 1; 1; 1; 0; 0]
       /\ forall i, 0 <= i ->
            flag map' i = flag [1; 0; 1; 1; 1; 1; 0; 0] i \/ flag map' i = Some 0.
Proof.
  apply (release_only_clears example_kb example_bits example_pool);
    by_computation.
Defined.

Lemma release_unaligned_aborts_witness :
  lj_release_to_static_pool example_kb example_bits example_pool
    madvise_ok [1; 0; 1; 1; 1; 1; 0; 0] 0x10020004 65536
  = AssertFail.
Proof.
  apply (release_unaligned_aborts example_kb example_bits example_pool);
    by_computation.
Defined.

Lemma alloc_whole_pool_witness :
  lj_alloc_from_static_pool example_kb example_bits example_pool mprotect_ok
    (replicate (Z.to_nat (STATIC_POOL_MAX_ENTRIES example_kb)) 0)
    (STATIC_POOL_MIN_BLOCK_SIZE * STATIC_POOL_MAX_ENTRIES example_kb) 7
  = Ret (aligned_pool_start example_bits example_pool,
         replicate (Z.to_nat (STATIC_POOL_MAX_ENTRIES example_kb)) 1)
  /\ forall mprotect' size' prot', 0 < size' < 2 ^ 32 ->
       lj_alloc_from_static_pool example_kb example_bits example_pool mprotect'
         (replicate (Z.to_nat (STATIC_POOL_MAX_ENTRIES example_kb)) 1) size' prot'
       = Ret (0, replicate (Z.to_nat (STATIC_POOL_MAX_ENTRIES example_kb)) 1).
Proof.
  apply (alloc_whole_pool example_kb example_bits example_pool); by_computation.
Defined.

Lemma used_figure_witness :
  count_used example_bits [1; 0; 1; 1; 1; 1; 0; 0] 0
    (trips_between 0 (STATIC_POOL_MAX_ENTRIES example_kb)) 0
  = Ret (STATIC_POOL_MIN_BLOCK_SIZE * set_flags [1; 0; 1; 1; 1; 1; 0; 0])
  /\ STATIC_POOL_MIN_BLOCK_SIZE * set_flags [1; 0; 1; 1; 1; 1; 0; 0]
     <= STATIC_POOL_SIZE example_kb.
Proof.
  apply (used_figure example_kb example_bits); by_computation.
Defined.

Lemma requests_within_capacity_granted_witness :
  exists st,
    run example_kb example_bits example_pool
      [Acquire 65536 7 mprotect_ok; Acquire 100000 7 mprotect_ok;
       Release 0 madvise_ok; Acquire 200000 7 mprotect_ok;
       Release 0 madvise_ok; Acquire 1 7 mprotect_ok]
      (initial_state example_kb) = Ret st
    /\ forall k p size, grants st !! k = Some (p, size) -> 1 <= size -> p <> 0.
Proof.
  apply (requests_within_capacity_granted example_kb example_bits example_pool);
    try by_computation.
  repeat constructor; intros; reflexivity.
Defined.

Lemma pool_fills_in_address_order_witness :
  run example_kb example_bits example_pool
    [Acquire 32768 7 mprotect_ok; Acquire 65536 5 mprotect_ok;
     Acquire 1 7 mprotect_ok; Acquire 4096 3 mprotect_ok;
     Acquire 65535 7 mprotect_ok; Acquire 100 7 mprotect_ok;
     Acquire 65536 7 mprotect_ok; Acquire 20000 1 mprotect_ok]
    (initial_state example_kb)
  = Ret (PoolState [1; 1; 1; 1; 1; 1; 1; 1]
           [(0x10010000, 32768); (0x10020000, 65536); (0x10030000, 1);
            (0x10040000, 4096); (0x10050000, 65535); (0x10060000, 100);
            (0x10070000, 65536); (0x10080000, 20000)]).
Proof.
  apply (pool_fills_in_address_order example_kb example_bits example_pool);
    try by_computation.
  repeat constructor; by_computation.
Defined.

Lemma alloc_within_whole_blocks_witness :
  0x10040000 + (65537 + 65535) / 65536 * 65536
  <= aligned_pool_start example_bits example_pool
     + STATIC_POOL_MAX_ENTRIES example_kb * 65536.
Proof.
  apply (alloc_within_whole_blocks example_kb example_bits example_pool
           ltac:(by_computation) ltac:(by_computation) ltac:(by_computation)
           ltac:(by_computation) ltac:(by_computation)
           mprotect_ok [1; 0; 1; 0; 0; 1; 0; 0] [1; 0; 1; 1; 1; 1; 0; 0] 65537 7);
    by_computation.
Defined.

Lemma occupancy_tracks_grants_witness :
  exists st,
    run example_kb example_bits example_pool
      [Acquire 65536 7 mprotect_ok; Acquire 100000 7 mprotect_ok;
       Release 0 madvise_ok; Acquire 32768 7 mprotect_ok]
      (initial_state example_kb) = Ret st
    /\ (forall i, 0 <= i < STATIC_POOL_MAX_ENTRIES example_kb ->
          flag (occupancy st) i = Some 0 \/ flag (occupancy st) i = Some 1)
    /\ (forall i, 0 <= i < STATIC_POOL_MAX_ENTRIES example_kb ->
          flag (occupancy st) i = Some 1
          <-> exists k p size,
                grants st !! k = Some (p, size) /\ (k ∉ [0%nat]) /\ p <> 0
                /\ p <= aligned_pool_start example_bits example_pool + i * 65536
                   < p + (size + 65535) / 65536 * 65536)
    /\ (forall k k' p p' size size', k <> k' ->
          grants st !! k = Some (p, size) -> grants st !! k' = Some (p', size') ->
          (k ∉ [0%nat]) -> (k' ∉ [0%nat]) -> p <> 0 -> p' <> 0 ->
          p + (size + 65535) / 65536 * 65536 <= p'
          \/ p' + (size' + 65535) / 65536 * 65536 <= p).
Proof.
  apply (occupancy_tracks_grants example_kb example_bits example_pool);
    by_computation.
Defined.
